(** * Synthesis2: the generation-and-privacy-filtering loop of [ai-engine/generate.py]

    A shallow embedding of [load_anomalies], [apply_anomalies] and [generate],
    with the pandas operations they use written out on lists of rows.

    Conventions of the embedding.
    - A [DataFrame] is its column list and its rows in positional order.  The
      frames whose index labels the code reads ([df.loc[indices, col]] and
      [samples.drop(leaked_indices)]) are the batches returned by
      [model.sample], which carry the default index [0 .. n-1]; a label is
      therefore modelled by the position of the row.
    - Cells are compared by equality only ([merge] and [drop_duplicates]
      both treat two missing cells as equal), so a cell is a value of a type
      with decidable equality.  Python's [True] and [False] are the integers
      [1] and [0] ([bool] is a subclass of [int]; they are equal and hash
      alike, which is all [drop_duplicates] and [merge] look at), so a boolean
      cell is the integer cell [VInt 1] or [VInt 0].
    - The key columns of [merge] are typed as pandas infers them from their
      cells: a column that holds a string has dtype [object], any other
      column is numeric.
    - Python exceptions that [generate] does not catch are results [inl e];
      logging and the calls to [model.sample] are recorded in a trace.
    - [int * float] is the binary64 product of [SpecFloat] (precision 53,
      [emax] 1024), and [int(...)] truncates it toward zero. *)

From Stdlib Require Import ZArith Lia.
From Stdlib Require Import Floats.SpecFloat.
From stdpp Require Import base decidable option list strings.

#[local] Set Warnings "-clear-no-such-hyp".

Local Open Scope Z_scope.
Local Open Scope list_scope.

(** ** Values, rows and frames *)

(** A cell: missing ([None], [NaN]), an integer (a [bool] is one), or a
    string. *)
Inductive value : Type :=
  | VNull
  | VInt (z : Z)
  | VStr (s : string).

(** The cell that holds [True] or [False]. *)
Definition bool_cell (b : bool) : value := VInt (Z.b2z b).

#[global] Instance value_eq_dec : EqDecision value.
Proof. solve_decision. Defined.

Abbreviation row := (list value).

Record DataFrame : Type := mkFrame {
  columns : list string;
  rows : list row
}.

#[global] Instance DataFrame_eq_dec : EqDecision DataFrame.
Proof. solve_decision. Defined.

(** [pd.DataFrame()] *)
Definition empty_frame : DataFrame := mkFrame [] [].

(** [len(df)] *)
Definition len (df : DataFrame) : nat := length (rows df).

(** [df.empty]: some axis has length zero. *)
Definition is_empty (df : DataFrame) : bool :=
  match columns df, rows df with
  | [], _ | _, [] => true
  | _, _ => false
  end.

(** Position of a column name in a column list. *)
Fixpoint index_of (c : string) (cols : list string) : option nat :=
  match cols with
  | [] => None
  | c' :: cols' => if decide (c' = c) then Some 0%nat else S <$> index_of c cols'
  end.

(** The cell of row [r] (laid out along [cols]) in column [c]; a column that
    is not there reads as missing. *)
Definition cell (cols : list string) (r : row) (c : string) : value :=
  match index_of c cols with
  | Some j => default VNull (r !! j)
  | None => VNull
  end.

(** [df[sub]] on one row, and the re-layout of a row along other columns. *)
Definition select (cols sub : list string) (r : row) : row := cell cols r <$> sub.

(** ** The accumulator: [pd.concat(..., ignore_index=True)] and [drop_duplicates()] *)

(** [pd.concat([a, b], ignore_index=True)]: the columns of [a] followed by the
    columns only [b] has; cells of a column a frame lacks are missing. *)
Definition concat (a b : DataFrame) : DataFrame :=
  let cols := columns a ++ filter (λ c, c ∉ columns a) (columns b) in
  mkFrame cols ((select (columns a) cols <$> rows a) ++ (select (columns b) cols <$> rows b)).

(** [DataFrame.duplicated(keep='first')] over rows already seen, and the rows
    [drop_duplicates] keeps. *)
Fixpoint keep_first (seen : list row) (l : list row) : list row :=
  match l with
  | [] => []
  | r :: l' => if decide (r ∈ seen) then keep_first seen l' else r :: keep_first (r :: seen) l'
  end.

Definition drop_duplicates (df : DataFrame) : DataFrame :=
  mkFrame (columns df) (keep_first [] (rows df)).

(** Lines 97-99 of [generate]. *)
Definition accumulate (generated_data samples : DataFrame) : DataFrame :=
  drop_duplicates (concat generated_data samples).

(** [df.head(n)]: the first [n] rows, or all but the last [-n] for negative [n]. *)
Definition head (n : Z) (df : DataFrame) : DataFrame :=
  mkFrame (columns df)
    (if 0 <=? n then take (Z.to_nat n) (rows df)
     else take (len df - Z.to_nat (- n)) (rows df)).

(** ** Exceptions *)

Inductive exn : Type :=
  | ValueError
  | OverflowError
  | KeyError
  | SystemExit (code : Z).

#[global] Instance exn_eq_dec : EqDecision exn.
Proof. solve_decision. Defined.

Definition bind_exn {A B : Type} (m : exn + A) (k : A → exn + B) : exn + B :=
  match m with
  | inl e => inl e
  | inr a => k a
  end.

Notation "'let!' x ':=' m 'in' k" := (bind_exn m (λ x, k))
  (at level 10, x pattern, m at level 100, k at level 200).

(** ** Numbers: Python [int] and [float] *)

Inductive number : Type :=
  | NInt (z : Z)
  | NFloat (f : spec_float).

(** [float(n)] for an [int] operand of a mixed product (round to nearest even;
    an [int] beyond the binary64 range raises [OverflowError]). *)
Definition float_of_int (n : Z) : exn + spec_float :=
  match binary_normalize 53 1024 n 0 false with
  | S754_infinity _ => inl OverflowError
  | f => inr f
  end.

(** [n * x] for an [int] [n]. *)
Definition int_mul (n : Z) (x : number) : exn + number :=
  match x with
  | NInt z => inr (NInt (n * z))
  | NFloat f => let! nf := float_of_int n in inr (NFloat (SFmul 53 1024 nf f))
  end.

(** [int(x)]: truncation toward zero. *)
Definition int (x : number) : exn + Z :=
  match x with
  | NInt z => inr z
  | NFloat (S754_zero _) => inr 0
  | NFloat (S754_finite s m e) => inr (cond_Zopp s (Z.shiftl (Z.pos m) e))
  | NFloat (S754_infinity _) => inl OverflowError
  | NFloat S754_nan => inl ValueError
  end.

(** The literals [1.1] and [0.05]. *)
Definition float_1_1 : spec_float := S754_finite false 4953959590107546 (-52).
Definition float_0_05 : spec_float := S754_finite false 7205759403792794 (-57).

(** Line 66: [batch_size = int(needed * 1.1) + 10]. *)
Definition batch_size (needed : Z) : exn + Z :=
  let! p := int_mul needed (NFloat float_1_1) in
  let! t := int p in
  inr (t + 10).

(** ** Anomaly rules *)

(** One element of the decoded configuration, as the four [anomaly.get(...)]
    calls read it: a key that is absent reads [None].  The decoded
    configuration is taken to be a list of such objects whose ['column'] and
    ['type'] are strings, ['value'] a scalar and ['ratio'] a number. *)
Record anomaly : Type := mkAnomaly {
  rule_column : option string;
  rule_type : option string;
  rule_value : option value;
  rule_ratio : option number
}.

(** [df.loc[indices, col] = v] on one row and on the frame.  The cells at
    the labels [indices] take the value [v]; pandas may also change the dtype
    of the column to hold [v] (an [int64] column that receives a missing value
    becomes [float64]), which leaves every cell that binary64 holds exactly
    as it is.  That cast is not written out here, and what is stated below
    of the cells of the rule's column that are not assigned is stated for
    such cells, see [exact]. *)
Definition set_cell (cols : list string) (c : string) (v : value) (r : row) : row :=
  match index_of c cols with
  | Some j => <[j := v]> r
  | None => r
  end.

Definition loc_set (indices : list nat) (c : string) (v : value) (df : DataFrame) : DataFrame :=
  mkFrame (columns df)
    (imap (λ i r, if decide (i ∈ indices) then set_cell (columns df) c v r else r) (rows df)).

(** [count = int(len(df) * ratio)], with the default [ratio] of [0.05]. *)
Definition anomaly_count (n : nat) (ratio : option number) : exn + Z :=
  let! p := int_mul (Z.of_nat n) (default (NFloat float_0_05) ratio) in
  int p.

(** [df.sample(n=count)] draws [count] labels uniformly without replacement.
    The draw is made by [count] successive choices among the labels that
    remain, each label as likely as any other: the [j]-th choice takes the
    label at the position the random generator gives for it (a number below
    the number of labels that remain; a larger one is reduced modulo it) and
    removes it from the frame's labels. *)
Fixpoint draw (count : nat) (labels rnd : list nat) : list nat :=
  match count with
  | O => []
  | S count' =>
      let j := (List.hd 0%nat rnd mod length labels)%nat in
      match labels !! j with
      | Some l => l :: draw count' (delete j labels) (List.tl rnd)
      | None => []
      end
  end.

Section Anomalies.
(** [pick k n count]: the numbers the random generator yields for the
    [count] choices of [df.sample(n=count)] at the [k]-th rule, on a frame of
    [n] rows. *)
Variable pick : nat → nat → nat → list nat.

(** [df.sample(n=count).index] on the index [0 .. n-1]; sampling is without
    replacement, so a negative [count] or one above [len(df)] raises
    [ValueError]. *)
Definition sample_index (k : nat) (df : DataFrame) (count : Z) : exn + list nat :=
  if (count <? 0) || (Z.of_nat (len df) <? count) then inl ValueError
  else inr (draw (Z.to_nat count) (seq 0 (len df)) (pick k (len df) (Z.to_nat count))).

(** The body of the [for] loop of [apply_anomalies], for the [k]-th rule. *)
Definition apply_anomaly (k : nat) (a : anomaly) (df : DataFrame) : exn + DataFrame :=
  match rule_column a with
  | Some col =>
      if decide (col ∈ columns df) then
        let! count := anomaly_count (len df) (rule_ratio a) in
        let! indices := sample_index k df count in
        if decide (rule_type a = Some "fixed"%string) then
          inr (loc_set indices col (default VNull (rule_value a)) df)
        else if decide (rule_type a = Some "null"%string) then
          inr (loc_set indices col VNull df)
        else inr df
      else inr df
  | None => inr df
  end.

Fixpoint apply_rules (k : nat) (anomalies : list anomaly) (df : DataFrame) : exn + DataFrame :=
  match anomalies with
  | [] => inr df
  | a :: rest => let! df' := apply_anomaly k a df in apply_rules (S k) rest df'
  end.

(** [apply_anomalies(df, anomalies)]; [not anomalies] holds for [None] and
    for the empty list. *)
Definition apply_anomalies (df : DataFrame) (anomalies : option (list anomaly)) : exn + DataFrame :=
  match anomalies with
  | None | Some [] => inr df
  | Some l => apply_rules 0 l df
  end.
End Anomalies.

(** ** The leakage filter (lines 81-95) *)

(** The [_merge] indicator of a left join. *)
Inductive merge_ind : Type :=
  | left_only
  | both.

#[global] Instance merge_ind_eq_dec : EqDecision merge_ind.
Proof. solve_decision. Defined.

(** [left.merge(right, on=common_cols, how='left', indicator=True)], both
    sides given by their key rows (the projections on [common_cols]).  A left
    join keeps the left order and emits one output row per matching right row,
    or a single [left_only] row when nothing matches; missing keys match each
    other.  The result carries a fresh index [0 .. m-1], so an output row is
    labelled by its position in this list.  Of each output row the key and the
    indicator are kept: the filter reads nothing else. *)
Definition merge_left (left right : list row) : list (row * merge_ind) :=
  flat_map (λ l, match filter (λ r, r = l) right with
                 | [] => [(l, left_only)]
                 | ms => (λ _, (l, both)) <$> ms
                 end) left.

(** [merged[merged['_merge'] == 'both'].index] *)
Definition leaked_indices (merged : list (row * merge_ind)) : list nat :=
  fst <$> filter (λ p, snd (snd p) = both) (imap (λ i x, (i, x)) merged).

(** [samples.drop(labels)] on the index [0 .. n-1]: [KeyError] when a label
    is not in the index, otherwise the rows whose label is not listed. *)
Definition drop_labels (labels : list nat) (df : DataFrame) : exn + DataFrame :=
  if decide (Forall (λ i, (i < len df)%nat) labels) then
    inr (mkFrame (columns df)
           (snd <$> filter (λ p, fst p ∉ labels) (imap (λ i r, (i, r)) (rows df))))
  else inl KeyError.

(** [common_cols = [c for c in cols if c in samples.columns]] *)
Definition common_cols (original_df samples : DataFrame) : list string :=
  filter (λ c, c ∈ columns samples) (columns original_df).

(** The cells of a column, top to bottom. *)
Definition column (df : DataFrame) (c : string) : list value :=
  (λ r, cell (columns df) r c) <$> rows df.

Definition is_str (v : value) : bool := match v with VStr _ => true | _ => false end.
Definition is_int (v : value) : bool := match v with VInt _ => true | _ => false end.

(** A column of dtype [object]: it holds a string. *)
Definition holds_str (cells : list value) : bool := existsb is_str cells.

(** An [object] column that [lib.infer_dtype] reads as string-like
    (["string"], or ["mixed"] for strings next to missing cells): it holds
    strings and no integer (with an integer it is ["mixed-integer"]). *)
Definition string_like (cells : list value) : bool :=
  holds_str cells && negb (existsb is_int cells).

(** The check [merge] makes on a pair of key columns before it joins: a
    string-like column against a numeric one raises [ValueError] ("You are
    trying to merge on object and int64 columns").  A side without rows is
    not checked. *)
Definition keys_clash (lk rk : list value) : bool :=
  match lk, rk with
  | [], _ | _, [] => false
  | _, _ => (string_like lk && negb (holds_str rk)) || (negb (holds_str lk) && string_like rk)
  end.

Definition key_types_clash (original_df samples : DataFrame) : bool :=
  existsb (λ c, keys_clash (column samples c) (column original_df c))
          (common_cols original_df samples).

(** [samples[common_cols].merge(original_df, on=common_cols, how='left',
    indicator=True)]: the check of every key column, then the join. *)
Definition merge (original_df samples : DataFrame) : exn + list (row * merge_ind) :=
  let common := common_cols original_df samples in
  if key_types_clash original_df samples then inl ValueError
  else inr (merge_left (select (columns samples) common <$> rows samples)
                       (select (columns original_df) common <$> rows original_df)).

(** The rows the filter marks when the join is made. *)
Definition leaked (original_df samples : DataFrame) : list nat :=
  let common := common_cols original_df samples in
  leaked_indices (merge_left (select (columns samples) common <$> rows samples)
                             (select (columns original_df) common <$> rows original_df)).

(** ** Traces *)

(** What a run does that can be observed: the records it logs, its calls to
    [model.sample] and the file it writes. *)
Inductive event : Type :=
  | ErrorLoadModel                                (* "Failed to load model" *)
  | InfoLoadOriginal                              (* "Loading original data ..." *)
  | InfoPass (attempt : nat) (batch_size : Z)     (* "Generation Pass i/10: Generating n records..." *)
  | CallSample (num_rows : Z)                     (* model.sample(num_rows=n) *)
  | ErrorSampling                                 (* "Sampling failed" *)
  | WarnAnomalyJson                               (* "Failed to parse anomaly JSON" *)
  | WarnLeaked (n : nat)                          (* "Detected n leaked records ... Removing..." *)
  | InfoNoLeak                                    (* "No leakage detected." *)
  | InfoFinal (n : nat)                           (* "Final Dataset: n records generated." *)
  | WarnShortfall (count : Z) (max_attempts : nat) (* "Could not generate full ... records ..." *)
  | WriteCsv (df : DataFrame)                     (* samples.to_csv(output_path, index=False) *)
  | InfoComplete                                  (* "Generation complete." *)
  | ErrorSave.                                    (* "Failed to save output" *)

#[global] Instance event_eq_dec : EqDecision event.
Proof. solve_decision. Defined.

(** A computation that logs and may raise. *)
Definition M (A : Type) : Type := list event * (exn + A).

Definition ret {A : Type} (a : A) : M A := ([], inr a).
Definition raise {A : Type} (e : exn) : M A := ([], inl e).
Definition log (ev : event) : M unit := ([ev], inr tt).
Definition lift {A : Type} (m : exn + A) : M A := ([], m).

Definition bind {A B : Type} (m : M A) (k : A → M B) : M B :=
  match m with
  | (t, inl e) => (t, inl e)
  | (t, inr a) => let '(t', r) := k a in (t ++ t', r)
  end.

Notation "'let*' x ':=' m 'in' k" := (bind m (λ x, k))
  (at level 10, x pattern, m at level 100, k at level 200).
Notation "'do' m 'then' k" := (bind m (λ _, k))
  (at level 10, m at level 100, k at level 200).

(** ** The collaborators of a run *)

Record world : Type := mkWorld {
  (** [CTGANSynthesizer.load(model_path)] returns *)
  model_loads : bool;
  (** [model.sample(num_rows=n)] at the i-th call: the batch, or [None] when it raises *)
  model_sample : nat → Z → option DataFrame;
  (** the numbers of the random generator for [df.sample] in the i-th pass, see [sample_index] *)
  frame_sample : nat → nat → nat → nat → list nat;
  (** [json.loads]: the decoded rules, or [None] when it raises *)
  json_loads : string → option (list anomaly);
  (** [to_csv] returns *)
  to_csv_ok : DataFrame → bool
}.

Definition max_attempts : nat := 10.

Section Generate.
Variable w : world.
(** [--count] *)
Variable count : Z.
(** the frame read from [--original]; [None] when the option is not given
    or the path does not exist *)
Variable original_df : option DataFrame.
(** [--anomalies] *)
Variable anomaly_json : option string.

(** [load_anomalies(anomaly_json)]; [not anomaly_json] holds for [None] and
    for the empty string. *)
Definition load_anomalies : M (option (list anomaly)) :=
  match anomaly_json with
  | None => ret None
  | Some s =>
      if decide (s = ""%string) then ret None
      else match json_loads w s with
           | Some a => ret (Some a)
           | None => do log WarnAnomalyJson then ret None
           end
  end.

(** Lines 76-78. *)
Definition anomaly_stage (attempt : nat) (samples : DataFrame) : M DataFrame :=
  let* anomalies := load_anomalies in
  match anomalies with
  | None | Some [] => ret samples
  | Some _ => lift (apply_anomalies (frame_sample w attempt) samples anomalies)
  end.

(** Lines 81-95. *)
Definition leakage_stage (samples : DataFrame) : M DataFrame :=
  match original_df with
  | Some o =>
      if is_empty o then ret samples
      else if (0 <? length (common_cols o samples))%nat then
        let* merged := lift (merge o samples) in
        let leaked_indices := leaked_indices merged in
        if (0 <? length leaked_indices)%nat then
          do log (WarnLeaked (length leaked_indices)) then
          lift (drop_labels leaked_indices samples)
        else do log InfoNoLeak then ret samples
      else ret samples
  | None => ret samples
  end.

(** The body of the [while] loop after [attempts += 1]; [inl] is [break]. *)
Definition pass (attempts : nat) (generated_data : DataFrame) : M (DataFrame + DataFrame) :=
  let needed := count - Z.of_nat (len generated_data) in
  let* batch_size := lift (batch_size needed) in
  do log (InfoPass attempts batch_size) then
  do log (CallSample batch_size) then
  match model_sample w attempts batch_size with
  | None => do log ErrorSampling then ret (inl generated_data)
  | Some samples =>
      let* samples := anomaly_stage attempts samples in
      let* samples := leakage_stage samples in
      ret (inr (accumulate generated_data samples))
  end.

(** The [while] loop (lines 62-99), by recursion on a bound on the passes
    still allowed. *)
Fixpoint loop (fuel : nat) (attempts : nat) (generated_data : DataFrame) : M (nat * DataFrame) :=
  match fuel with
  | O => ret (attempts, generated_data)
  | S fuel' =>
      if (Z.of_nat (len generated_data) <? count) && (attempts <? max_attempts)%nat then
        let* r := pass (S attempts) generated_data in
        match r with
        | inl g => ret (S attempts, g)
        | inr g => loop fuel' (S attempts) g
        end
      else ret (attempts, generated_data)
  end.

(** Lines 101-117. *)
Definition finish (generated_data : DataFrame) : M unit :=
  let generated_data :=
    if count <? Z.of_nat (len generated_data) then head count generated_data
    else generated_data in
  do log (InfoFinal (len generated_data)) then
  do (if Z.of_nat (len generated_data) <? count then log (WarnShortfall count max_attempts)
      else ret tt) then
  if to_csv_ok w generated_data then
    do log (WriteCsv generated_data) then log InfoComplete
  else do log ErrorSave then raise (SystemExit 1).

Definition generate : M unit :=
  if model_loads w then
    do (match original_df with Some _ => log InfoLoadOriginal | None => ret tt end) then
    let* r := loop max_attempts 0 empty_frame in
    finish (snd r)
  else do log ErrorLoadModel then raise (SystemExit 1).
End Generate.

#[global] Arguments loop : simpl never.

(** * Properties *)

(** ** The monad of runs *)

Lemma bind_inr {A B} (t : list event) (a : A) (k : A → M B) :
  bind (t, inr a) k = (t ++ fst (k a), snd (k a)).
Proof. unfold bind. by destruct (k a). Qed.

Lemma bind_inl {A B} (t : list event) (e : exn) (k : A → M B) :
  bind (t, inl e) k = (t, inl e).
Proof. done. Qed.

Lemma bind_eq {A B} (m : M A) (k : A → M B) :
  bind m k = (fst m ++ match snd m with inl _ => [] | inr a => fst (k a) end,
              match snd m with inl e => inl e | inr a => snd (k a) end).
Proof. destruct m as [t [e|a]]; simpl; [by rewrite app_nil_r | by destruct (k a)]. Qed.

Lemma Forall_bind {A B} (P : event → Prop) (m : M A) (k : A → M B) :
  Forall P (fst m) → (∀ a, snd m = inr a → Forall P (fst (k a))) → Forall P (fst (bind m k)).
Proof.
  intros Hm Hk. rewrite bind_eq; simpl. apply Forall_app. split; [done|].
  destruct (snd m) as [e|a]; [constructor | by apply Hk].
Qed.

(** ** Frames over a fixed schema *)

(** A frame laid out along [cols]: the Row Source has a fixed output schema. *)
Definition wf (cols : list string) (df : DataFrame) : Prop :=
  columns df = cols ∧ Forall (λ r : row, length r = length cols) (rows df).

Lemma cell_head c cs v (vs : row) : cell (c :: cs) (v :: vs) c = v.
Proof. unfold cell; simpl. by rewrite decide_True. Qed.

Lemma cell_tail c c' cs v (vs : row) :
  c ≠ c' → cell (c :: cs) (v :: vs) c' = cell cs vs c'.
Proof.
  intros Hne. unfold cell; simpl. rewrite decide_False by done.
  by destruct (index_of c' cs).
Qed.

Lemma select_same cols (r : row) :
  NoDup cols → length r = length cols → select cols cols r = r.
Proof.
  unfold select. intros Hnd; revert r.
  induction Hnd as [|c cs Hnotin Hnd IH]; intros [|v vs] Hlen; simplify_eq/=; try done.
  rewrite cell_head. f_equal.
  rewrite <- (IH vs) at 2 by done.
  apply list_fmap_ext. intros i c' Hc'.
  apply cell_tail. intros ->. apply Hnotin. eapply list_elem_of_lookup_2; eauto.
Qed.

Lemma filter_none {A} (P : A → Prop) `{!∀ x, Decision (P x)} (l : list A) :
  Forall (λ x, ¬ P x) l → filter P l = [].
Proof.
  induction 1 as [|x l Hx _ IH]; [done|]. by rewrite filter_cons_False.
Qed.

Lemma filter_all {A} (P : A → Prop) `{!∀ x, Decision (P x)} (l : list A) :
  Forall P l → filter P l = l.
Proof.
  induction 1 as [|x l Hx _ IH]; [done|]. rewrite filter_cons_True by done. by f_equal.
Qed.

Lemma filter_not_in_self (cols : list string) : filter (λ c, c ∉ cols) cols = [].
Proof. apply filter_none, Forall_forall. intros c Hc Hn. by apply Hn. Qed.

Lemma concat_wf cols a b :
  NoDup cols → wf cols a → wf cols b → concat a b = mkFrame cols (rows a ++ rows b).
Proof.
  intros Hnd [Ha Hra] [Hb Hrb]. unfold concat. rewrite Ha, Hb, filter_not_in_self, app_nil_r.
  f_equal. f_equal.
  - rewrite <- (list_fmap_id (rows a)) at 2. apply Forall_fmap_ext.
    eapply Forall_impl; [exact Hra|]. intros r Hr; simpl. by apply select_same.
  - rewrite <- (list_fmap_id (rows b)) at 2. apply Forall_fmap_ext.
    eapply Forall_impl; [exact Hrb|]. intros r Hr; simpl. by apply select_same.
Qed.

Lemma concat_empty cols b :
  NoDup cols → wf cols b → concat empty_frame b = mkFrame cols (rows b).
Proof.
  intros Hnd [Hb Hrb]. unfold concat; simpl. rewrite Hb.
  rewrite (filter_all (λ c, c ∉ [])) by (apply Forall_forall; intros c _; apply not_elem_of_nil).
  f_equal.
  rewrite <- (list_fmap_id (rows b)) at 2. apply Forall_fmap_ext.
  eapply Forall_impl; [exact Hrb|]. intros r Hr; simpl. by apply select_same.
Qed.

(** ** [keep_first] *)


Lemma elem_of_keep_first (seen l : list row) (x : row) :
  x ∈ keep_first seen l ↔ x ∈ l ∧ x ∉ seen.
Proof.
  revert seen. induction l as [|r l IH]; intros seen; simpl.
  - rewrite elem_of_nil. naive_solver.
  - destruct (decide (r ∈ seen)) as [Hr|Hr].
    + rewrite IH, elem_of_cons. naive_solver.
    + rewrite !elem_of_cons, IH, elem_of_cons.
      destruct (decide (x = r)); naive_solver.
Qed.

Lemma keep_first_NoDup (seen l : list row) : NoDup (keep_first seen l).
Proof.
  revert seen. induction l as [|r l IH]; intros seen; simpl; [constructor|].
  destruct (decide (r ∈ seen)); [apply IH|].
  constructor; [|apply IH].
  rewrite elem_of_keep_first, elem_of_cons. naive_solver.
Qed.






(** ** The accumulator over a sequence of batches *)


Section Accumulator.
Variable cols : list string.
Hypothesis cols_NoDup : NoDup cols.

Lemma wf_keep_first (l : list row) :
  Forall (λ r : row, length r = length cols) l → wf cols (mkFrame cols (keep_first [] l)).
Proof.
  intros Hl. split; [done|]. simpl. apply Forall_forall. intros r Hr.
  apply elem_of_keep_first in Hr as [Hr _]. by eapply Forall_forall in Hl.
Qed.

Lemma accumulate_wf g b :
  wf cols g → wf cols b → accumulate g b = mkFrame cols (keep_first [] (rows g ++ rows b)).
Proof. intros Hg Hb. unfold accumulate. by rewrite (concat_wf cols). Qed.

Lemma accumulate_empty b :
  wf cols b → accumulate empty_frame b = mkFrame cols (keep_first [] (rows b)).
Proof. intros Hb. unfold accumulate. by rewrite (concat_empty cols). Qed.


End Accumulator.


(** ** Cells *)

Lemma index_of_Some c cols j :
  index_of c cols = Some j → cols !! j = Some c.
Proof.
  revert j. induction cols as [|c' cols IH]; intros j; simpl; [done|].
  destruct (decide (c' = c)) as [->|Hne]; [by intros [= <-]|].
  destruct (index_of c cols) as [j'|]; simpl; [|done].
  intros [= <-]. by apply IH.
Qed.

Lemma index_of_elem c cols : c ∈ cols → is_Some (index_of c cols).
Proof.
  induction 1 as [c cols|c c' cols Hin IH]; simpl.
  - rewrite decide_True by done. by eexists.
  - destruct (decide (c' = c)); [by eexists|]. destruct IH as [j ->]. by eexists.
Qed.

Lemma cell_set_cell_eq cols c v (r : row) :
  c ∈ cols → length r = length cols → cell cols (set_cell cols c v r) c = v.
Proof.
  intros Hin Hlen. unfold cell, set_cell.
  destruct (index_of_elem c cols Hin) as [j Hj]. rewrite Hj.
  apply index_of_Some, lookup_lt_Some in Hj.
  rewrite list_lookup_insert_eq by lia. done.
Qed.

Lemma cell_set_cell_ne cols c c' v (r : row) :
  c ≠ c' → cell cols (set_cell cols c v r) c' = cell cols r c'.
Proof.
  intros Hne. unfold cell, set_cell.
  destruct (index_of c cols) as [j|] eqn:Hj; [|done].
  destruct (index_of c' cols) as [j'|] eqn:Hj'; [|done].
  rewrite list_lookup_insert_ne; [done|].
  intros ->. apply index_of_Some in Hj, Hj'. congruence.
Qed.

Lemma set_cell_length cols c v (r : row) : length (set_cell cols c v r) = length r.
Proof. unfold set_cell. destruct (index_of c cols); [apply length_insert | done]. Qed.

(** ** Counting the rows at selected positions *)

Lemma length_filter_ne (n : nat) (idx : list nat) :
  NoDup idx → (length idx ≤ S (length (filter (λ i, i ≠ n) idx)))%nat.
Proof.
  induction 1 as [|i idx Hnotin Hnd IH]; simpl; [lia|].
  destruct (decide (i = n)) as [->|Hne].
  - rewrite filter_cons_False by naive_solver.
    rewrite (filter_all (λ i, i ≠ n)); [lia|].
    apply Forall_forall. intros j Hj ->. done.
  - rewrite filter_cons_True by done. simpl. lia.
Qed.

Lemma length_filter_ge_selected {A} (P : A → Prop) `{!∀ x, Decision (P x)}
    (l : list A) (idx : list nat) :
  NoDup idx →
  (∀ i, i ∈ idx → ∃ x, l !! i = Some x ∧ P x) →
  (length idx ≤ length (filter P l))%nat.
Proof.
  revert idx. induction l as [|x l IH] using rev_ind; intros idx Hnd Hsel.
  - destruct idx as [|i idx]; [done|].
    destruct (Hsel i) as (x & Hx & _); [left | done].
  - rewrite filter_app, length_app.
    pose proof (length_filter_ne (length l) idx Hnd) as Hlen.
    assert (length (filter (λ i, i ≠ length l) idx) ≤ length (filter P l))%nat as Hrec.
    { apply IH; [by apply NoDup_filter|].
      intros i [Hi Hin]%list_elem_of_filter. destruct (Hsel i Hin) as (y & Hy & HP).
      exists y. split; [|done].
      assert (i < length (l ++ [x]))%nat as Hlt by (by eapply lookup_lt_Some).
      rewrite length_app in Hlt. simpl in Hlt.
      rewrite lookup_app_l in Hy by lia. done. }
    destruct (decide (length l ∈ idx)) as [Hin|Hnotin].
    + destruct (Hsel _ Hin) as (y & Hy & HP).
      rewrite list_lookup_middle in Hy by done. injection Hy as <-.
      rewrite filter_cons_True by done. simpl. lia.
    + rewrite (filter_all (λ i, i ≠ length l)) in Hrec; [lia|].
      apply Forall_forall. intros j Hj ->. done.
Qed.

(** ** The anomaly injector *)

(** What [df.sample(n=count)] returns on a frame of [n] rows: [count]
    distinct labels of the frame. *)
Definition valid_sample (n count : nat) (idx : list nat) : Prop :=
  NoDup idx ∧ length idx = count ∧ Forall (λ i, (i < n)%nat) idx.

(** The numbers a generator can yield for a draw among [m] labels: the
    [j]-th is below the number [m - j] of labels that remain, each such
    number as likely as any other. *)
Definition in_range (m : nat) (rnd : list nat) : Prop :=
  ∀ j r, rnd !! j = Some r → (r < m - j)%nat.

Lemma draw_S count labels rnd j l :
  j = (List.hd 0%nat rnd mod length labels)%nat → labels !! j = Some l →
  draw (S count) labels rnd = l :: draw count (delete j labels) (List.tl rnd).
Proof. intros -> Hl. simpl. by rewrite Hl. Qed.

Lemma NoDup_delete_lookup (labels : list nat) j l :
  NoDup labels → labels !! j = Some l → NoDup (delete j labels) ∧ l ∉ delete j labels.
Proof.
  intros Hnd Hl. apply delete_Permutation in Hl. rewrite Hl in Hnd.
  apply NoDup_cons in Hnd. tauto.
Qed.

Lemma elem_of_delete_lookup (labels : list nat) j l x :
  labels !! j = Some l → x ∈ labels → x ≠ l → x ∈ delete j labels.
Proof.
  intros Hl Hx Hne. apply delete_Permutation in Hl. rewrite Hl in Hx.
  apply elem_of_cons in Hx as [?|?]; done.
Qed.

(** The draw yields [count] distinct labels, whatever the generator yields. *)
Lemma draw_valid count labels rnd :
  (count ≤ length labels)%nat → NoDup labels →
  NoDup (draw count labels rnd) ∧ length (draw count labels rnd) = count
  ∧ ∀ i, i ∈ draw count labels rnd → i ∈ labels.
Proof.
  revert labels rnd. induction count as [|count IH]; intros labels rnd Hle Hnd.
  - simpl. split; [constructor|]. split; [done|]. intros i Hi. by apply elem_of_nil in Hi.
  - assert (List.hd 0%nat rnd mod length labels < length labels)%nat as Hj
      by (apply Nat.mod_upper_bound; lia).
    destruct (lookup_lt_is_Some_2 labels _ Hj) as [l Hl].
    rewrite (draw_S count labels rnd _ l eq_refl Hl).
    destruct (NoDup_delete_lookup labels _ l Hnd Hl) as [Hnd' Hnotin].
    destruct (IH (delete (List.hd 0%nat rnd mod length labels)%nat labels) (List.tl rnd))
      as (Hnd'' & Hlen & Hsub); [rewrite length_delete by eauto; lia | done |].
    split; [|split].
    + constructor; [|done]. intros Hin. by apply Hnotin, Hsub.
    + simpl. by rewrite Hlen.
    + intros i. rewrite elem_of_cons. intros [->|Hi].
      * by eapply list_elem_of_lookup_2.
      * eapply list_elem_of_delete_inv. by apply Hsub.
Qed.

(** The draw is uniform: every list of [count] distinct labels is drawn for
    exactly one of the equally likely sequences the generator can yield. *)
Lemma draw_uniform count labels idx :
  NoDup labels → NoDup idx → length idx = count → (∀ i, i ∈ idx → i ∈ labels) →
  ∃ rnd, length rnd = count ∧ in_range (length labels) rnd ∧ draw count labels rnd = idx
    ∧ ∀ rnd', length rnd' = count → in_range (length labels) rnd' →
        draw count labels rnd' = idx → rnd' = rnd.
Proof.
  revert count labels. induction idx as [|i idx IH]; intros count labels Hnd Hndi Hlen Hsub.
  - simpl in Hlen. subst count. exists []. split; [done|]. split; [by intros j r Hj|].
    split; [done|]. intros rnd' Hl _ _. by apply nil_length_inv.
  - simpl in Hlen. subst count. apply NoDup_cons in Hndi as [Hi Hndi].
    assert (i ∈ labels) as Hin by (apply Hsub; left).
    apply list_elem_of_lookup in Hin as [j Hj].
    pose proof (lookup_lt_Some _ _ _ Hj) as Hjlt.
    destruct (NoDup_delete_lookup labels j i Hnd Hj) as [Hnd' Hnotin].
    destruct (IH (length idx) (delete j labels) Hnd' Hndi eq_refl) as (rnd & Hl & Hr & Hd & Huniq).
    { intros x Hx. apply (elem_of_delete_lookup labels j i); [done | apply Hsub; by right |].
      intros ->. done. }
    rewrite length_delete in Hr, Huniq by eauto.
    exists (j :: rnd). split; [simpl; by rewrite Hl|]. split; [|split].
    + intros [|p] r; simpl.
      * intros [= <-]. lia.
      * intros Hp. apply Hr in Hp. lia.
    + rewrite (draw_S _ labels (j :: rnd) j i); simpl; [by rewrite Hd | | done].
      by rewrite Nat.mod_small.
    + intros [|r rnd'] Hl' Hr' Hd'; [done|].
      assert (r < length labels)%nat as Hrlt by (specialize (Hr' 0%nat r eq_refl); lia).
      destruct (lookup_lt_is_Some_2 labels r Hrlt) as [l Hlr].
      rewrite (draw_S _ labels (r :: rnd') r l) in Hd'; simpl;
        [| by rewrite Nat.mod_small | done].
      simpl in Hd'. injection Hd' as -> Hd'.
      assert (r = j) as -> by (eapply NoDup_lookup; [exact Hnd | exact Hlr | exact Hj]).
      f_equal. apply Huniq; [simpl in Hl'; lia | | done].
      intros p x Hp. specialize (Hr' (S p) x Hp). lia.
Qed.

Lemma sample_index_ok pick k df count :
  0 ≤ count ≤ Z.of_nat (len df) →
  sample_index pick k df count
  = inr (draw (Z.to_nat count) (seq 0 (len df)) (pick k (len df) (Z.to_nat count))).
Proof.
  intros Hc. unfold sample_index.
  destruct (count <? 0) eqn:H1; [lia|]. destruct (Z.of_nat (len df) <? count) eqn:H2; [lia|]. done.
Qed.

(** The sample of a frame of [n] rows is a valid one. *)
Lemma draw_seq_valid n count rnd :
  (count ≤ n)%nat → valid_sample n count (draw count (seq 0 n) rnd).
Proof.
  intros Hle. destruct (draw_valid count (seq 0 n) rnd) as (Hnd & Hlen & Hsub);
    [by rewrite length_seq | apply NoDup_seq |].
  split; [done|]. split; [done|]. apply Forall_forall. intros i Hi.
  apply Hsub, elem_of_seq in Hi. lia.
Qed.

Lemma loc_set_lookup idx c v df i :
  rows (loc_set idx c v df) !! i
  = (λ r, if decide (i ∈ idx) then set_cell (columns df) c v r else r) <$> rows df !! i.
Proof. unfold loc_set; simpl. by rewrite list_lookup_imap. Qed.

Lemma loc_set_len idx c v df : len (loc_set idx c v df) = len df.
Proof. unfold len, loc_set; simpl. by rewrite length_imap. Qed.

(** What a rule of type ['fixed'] or ['null'] writes. *)
Definition written (ty : string) (v : option value) : value :=
  if decide (ty = "fixed"%string) then default VNull v else VNull.

(** A cell that binary64 holds exactly: the cast of its column between
    [int64], [float64] and [object] leaves it as it is. *)
Definition exact (v : value) : Prop :=
  match v with
  | VInt z => Z.abs z ≤ 2 ^ 53
  | _ => True
  end.

Lemma apply_anomaly_typed pick k df col ty v ratio count :
  col ∈ columns df →
  anomaly_count (len df) ratio = inr count →
  0 ≤ count ≤ Z.of_nat (len df) →
  ty = "fixed"%string ∨ ty = "null"%string →
  apply_anomaly pick k (mkAnomaly (Some col) (Some ty) v ratio) df
  = inr (loc_set (draw (Z.to_nat count) (seq 0 (len df)) (pick k (len df) (Z.to_nat count)))
                 col (written ty v) df).
Proof.
  intros Hcol Hcount Hrange Hty. unfold apply_anomaly; simpl.
  rewrite decide_True by done. rewrite Hcount; simpl.
  rewrite sample_index_ok by done; simpl.
  unfold written. destruct Hty as [-> | ->].
  - by rewrite !decide_True.
  - rewrite decide_False by done. rewrite decide_True by done. by rewrite decide_False.
Qed.

(** The cells of a frame after an assignment at valid labels: a selected row
    holds the value in the column and keeps its other cells, every other row
    is as it was. *)
Lemma loc_set_cells idx col v df :
  wf (columns df) df → col ∈ columns df → Forall (λ i, (i < len df)%nat) idx →
  (∀ i, i ∈ idx → ∃ r r', rows df !! i = Some r ∧ rows (loc_set idx col v df) !! i = Some r'
        ∧ cell (columns df) r' col = v
        ∧ ∀ c, c ≠ col → cell (columns df) r' c = cell (columns df) r c)
  ∧ (∀ i, i ∉ idx → rows (loc_set idx col v df) !! i = rows df !! i).
Proof.
  intros [_ Hwf] Hcol Hlt. split.
  - intros i Hi.
    assert (i < len df)%nat as Hi' by (by eapply Forall_forall in Hlt).
    destruct (lookup_lt_is_Some_2 (rows df) i Hi') as [r Hr].
    exists r, (set_cell (columns df) col v r).
    rewrite loc_set_lookup, Hr; simpl. rewrite decide_True by done.
    split; [done|]. split; [done|]. split.
    + apply cell_set_cell_eq; [done|]. eapply Forall_lookup_1 in Hwf; eauto.
    + intros c Hc. by apply cell_set_cell_ne.
  - intros i Hi. rewrite loc_set_lookup. destruct (rows df !! i); simpl; [|done].
    by rewrite decide_False.
Qed.

(** C4 (anomaly injector, as the code has it): for a batch of [n] rows laid
    out along its columns and a rule of type ['fixed'] or ['null'] whose
    column is in the batch, with [count = int(n * ratio)] (the binary64
    product truncated toward zero) between [0] and [n], the injector selects
    exactly [count] distinct labels of the batch, uniformly without
    replacement (every list of [count] distinct labels is the sample for
    exactly one of the equally likely sequences the generator can yield), and
    writes at exactly those: the frame keeps its columns and size, a selected
    row gets the rule's value (['fixed']) or the missing value (['null']) in
    the rule's column and keeps its other cells, every other row keeps its
    cells (in the rule's column, the cells that binary64 holds exactly), and
    so at least [count] rows of the result hold the written value in that
    column. *)
Theorem anomaly_rule_writes_at_sampled_rows pick k df col ty v ratio count :
  wf (columns df) df →
  col ∈ columns df →
  ty = "fixed"%string ∨ ty = "null"%string →
  anomaly_count (len df) ratio = inr count →
  0 ≤ count ≤ Z.of_nat (len df) →
  exact (written ty v) →
  ∃ idx df',
    sample_index pick k df count = inr idx
    ∧ apply_anomaly pick k (mkAnomaly (Some col) (Some ty) v ratio) df = inr df'
    ∧ columns df' = columns df ∧ len df' = len df
    ∧ NoDup idx ∧ Z.of_nat (length idx) = count ∧ Forall (λ i, (i < len df)%nat) idx
    ∧ idx = draw (Z.to_nat count) (seq 0 (len df)) (pick k (len df) (Z.to_nat count))
    ∧ (∀ target, valid_sample (len df) (Z.to_nat count) target →
         ∃ rnd, length rnd = Z.to_nat count ∧ in_range (len df) rnd
           ∧ draw (Z.to_nat count) (seq 0 (len df)) rnd = target
           ∧ ∀ rnd', length rnd' = Z.to_nat count → in_range (len df) rnd' →
               draw (Z.to_nat count) (seq 0 (len df)) rnd' = target → rnd' = rnd)
    ∧ (∀ i, i ∈ idx → ∃ r r', rows df !! i = Some r ∧ rows df' !! i = Some r'
          ∧ cell (columns df) r' col = written ty v
          ∧ ∀ c, c ≠ col → cell (columns df) r' c = cell (columns df) r c)
    ∧ (∀ i r, i ∉ idx → rows df !! i = Some r →
         ∃ r', rows df' !! i = Some r'
           ∧ ∀ c, c ≠ col ∨ exact (cell (columns df) r c) →
                  cell (columns df) r' c = cell (columns df) r c)
    ∧ count ≤ Z.of_nat (length (filter (λ r, cell (columns df) r col = written ty v) (rows df'))).
Proof.
  intros Hwf Hcol Hty Hcount Hrange _.
  set (idx := draw (Z.to_nat count) (seq 0 (len df)) (pick k (len df) (Z.to_nat count))).
  destruct (draw_seq_valid (len df) (Z.to_nat count) (pick k (len df) (Z.to_nat count)))
    as (Hnd & Hlen & Hlt); [lia|]. fold idx in Hnd, Hlen, Hlt.
  destruct (loc_set_cells idx col (written ty v) df Hwf Hcol Hlt) as [Hsel Hrest].
  exists idx, (loc_set idx col (written ty v) df).
  split; [by apply sample_index_ok|].
  split; [by apply apply_anomaly_typed|].
  split; [done|]. split; [apply loc_set_len|]. split; [done|].
  split; [lia|]. split; [done|]. split; [done|]. split; [|split; [exact Hsel|split]].
  - intros target (Htnd & Htlen & Htlt).
    destruct (draw_uniform (Z.to_nat count) (seq 0 (len df)) target)
      as (rnd & Hl & Hr & Hd & Huniq); [apply NoDup_seq | done | done | |].
    { intros i Hi. apply elem_of_seq. eapply Forall_forall in Htlt; [|exact Hi]. lia. }
    rewrite length_seq in Hr, Huniq.
    exists rnd. done.
  - intros i r Hi Hr. exists r. rewrite Hrest by done. done.
  - assert (length idx ≤ length (filter (λ r, cell (columns df) r col = written ty v)
                                   (rows (loc_set idx col (written ty v) df))))%nat as Hge.
    { apply length_filter_ge_selected; [done|]. intros i Hi.
      destruct (Hsel i Hi) as (r & r' & _ & Hr' & Hc & _). eauto. }
    lia.
Qed.

(** The same rule anywhere in the rule list: replacing a rule by one that
    acts alike leaves [apply_anomalies] unchanged. *)
Lemma apply_rules_congr pick (a a' : anomaly) :
  (∀ k df, apply_anomaly pick k a df = apply_anomaly pick k a' df) →
  ∀ pre post k df,
    apply_rules pick k (pre ++ a :: post) df = apply_rules pick k (pre ++ a' :: post) df.
Proof.
  intros Heq pre post. induction pre as [|b pre IH]; intros k df; simpl.
  - by rewrite Heq.
  - destruct (apply_anomaly pick k b df); simpl; [done | apply IH].
Qed.

(** C9 (a ['fixed'] rule without ['value']): the rule is not skipped.  It acts
    exactly as the ['null'] rule on the same column and ratio, alone or
    anywhere in a rule list; and on a batch that has its column, with a count
    between [0] and the number of rows, it returns the batch with the missing
    value in that column at each of the [count] distinct labels sampled, the
    other columns as they were. *)
Theorem fixed_rule_without_value_nullifies pick k col ratio count df :
  wf (columns df) df →
  col ∈ columns df →
  anomaly_count (len df) ratio = inr count →
  0 ≤ count ≤ Z.of_nat (len df) →
  let fixed := mkAnomaly (Some col) (Some "fixed"%string) None ratio in
  let null := mkAnomaly (Some col) (Some "null"%string) None ratio in
  (∀ j d, apply_anomaly pick j fixed d = apply_anomaly pick j null d)
  ∧ (∀ pre post d, apply_anomalies pick d (Some (pre ++ fixed :: post))
                   = apply_anomalies pick d (Some (pre ++ null :: post)))
  ∧ ∃ idx df',
      sample_index pick k df count = inr idx
      ∧ apply_anomaly pick k fixed df = inr df'
      ∧ NoDup idx ∧ Z.of_nat (length idx) = count
      ∧ len df' = len df
      ∧ (∀ i, i ∈ idx → ∃ r', rows df' !! i = Some r' ∧ cell (columns df) r' col = VNull)
      ∧ (∀ i r r' c, rows df !! i = Some r → rows df' !! i = Some r' → c ≠ col →
           cell (columns df) r' c = cell (columns df) r c).
Proof.
  intros Hwf Hcol Hcount Hrange fixed null.
  assert (∀ j d, apply_anomaly pick j fixed d = apply_anomaly pick j null d) as Heq.
  { intros j d. unfold apply_anomaly; simpl.
    destruct (decide (col ∈ columns d)); [|done].
    destruct (anomaly_count (len d) ratio); simpl; [done|].
    by destruct (sample_index pick j d z). }
  split; [exact Heq|]. split.
  - intros pre post d. unfold apply_anomalies.
    destruct pre as [|b pre]; simpl.
    + rewrite Heq. done.
    + destruct (apply_anomaly pick 0 b d); simpl; [done|]. by apply apply_rules_congr.
  - set (idx := draw (Z.to_nat count) (seq 0 (len df)) (pick k (len df) (Z.to_nat count))).
    destruct (draw_seq_valid (len df) (Z.to_nat count) (pick k (len df) (Z.to_nat count)))
      as (Hnd & Hlen & Hlt); [lia|]. fold idx in Hnd, Hlen, Hlt.
    destruct (loc_set_cells idx col VNull df Hwf Hcol Hlt) as [Hsel Hrest].
    exists idx, (loc_set idx col VNull df).
    split; [by apply sample_index_ok|].
    split; [by apply (apply_anomaly_typed pick k df col "fixed" None ratio count); auto|].
    split; [done|]. split; [lia|]. split; [apply loc_set_len|]. split.
    + intros i Hi. destruct (Hsel i Hi) as (r & r' & _ & Hr' & Hc & _). eauto.
    + intros i r r' c Hr Hr' Hne. destruct (decide (i ∈ idx)) as [Hi|Hi].
      * destruct (Hsel i Hi) as (r0 & r0' & Hr0 & Hr0' & _ & Hother).
        rewrite Hr in Hr0. rewrite Hr' in Hr0'. simplify_eq. by apply Hother.
      * rewrite Hrest, Hr in Hr' by done. by simplify_eq.
Qed.

(** ** The leakage filter *)

(** A candidate row leaks: some original row equals it on every common
    column. *)
Definition leaks (original_df samples : DataFrame) (r : row) : Prop :=
  select (columns samples) (common_cols original_df samples) r
  ∈ (select (columns original_df) (common_cols original_df samples) <$> rows original_df).

#[global] Instance leaks_dec original_df samples r : Decision (leaks original_df samples r).
Proof. unfold leaks. apply _. Defined.

Lemma leaks_iff original_df samples r :
  leaks original_df samples r ↔
  ∃ r', r' ∈ rows original_df
        ∧ ∀ c, c ∈ common_cols original_df samples →
               cell (columns samples) r c = cell (columns original_df) r' c.
Proof.
  unfold leaks, select. rewrite list_elem_of_fmap. split.
  - intros (r' & Heq & Hin). exists r'. split; [done|]. intros c Hc.
    apply list_elem_of_lookup in Hc as [i Hi].
    apply (f_equal (λ l, l !! i)) in Heq. rewrite !list_lookup_fmap, Hi in Heq.
    by injection Heq.
  - intros (r' & Hin & Heq). exists r'. split; [|done].
    apply list_fmap_ext. intros i c Hc. apply Heq. by eapply list_elem_of_lookup_2.
Qed.

(** The labels the filter reads off the join. *)
Lemma elem_of_leaked_indices (merged : list (row * merge_ind)) (i : nat) :
  i ∈ leaked_indices merged ↔ ∃ x, merged !! i = Some x ∧ snd x = both.
Proof.
  unfold leaked_indices. rewrite list_elem_of_fmap. split.
  - intros ([j x] & -> & [HQ Hin]%list_elem_of_filter). simpl in *.
    apply list_elem_of_lookup in Hin as [k Hk].
    rewrite list_lookup_imap in Hk. destruct (merged !! k) eqn:Hlk; simplify_eq/=. eauto.
  - intros (x & Hx & HQ). exists (i, x). split; [done|].
    apply list_elem_of_filter. split; [done|].
    apply list_elem_of_lookup. exists i. by rewrite list_lookup_imap, Hx.
Qed.

(** Dropping the labelled positions, when the labels are the positions of
    the elements that satisfy [Q], keeps the other elements in order. *)
Lemma drop_positions {A} (Q : A → Prop) `{!∀ x, Decision (Q x)} (labels : list nat) (l : list A) :
  (∀ i x, l !! i = Some x → (i ∈ labels ↔ Q x)) →
  snd <$> filter (λ p, fst p ∉ labels) (imap (λ i x, (i, x)) l) = filter (λ x, ¬ Q x) l.
Proof.
  induction l as [|x l IH] using rev_ind; intros Hlab; [done|].
  rewrite imap_app, !filter_app, fmap_app. simpl. f_equal.
  - apply IH. intros i y Hy. apply Hlab. by apply lookup_app_l_Some.
  - rewrite Nat.add_0_r.
    specialize (Hlab (length l) x (list_lookup_middle _ _ _ _ eq_refl)).
    destruct (decide (Q x)) as [HQ|HQ].
    + rewrite filter_cons_False by (simpl; tauto).
      rewrite (filter_cons_False (λ x, ¬ Q x)) by tauto. done.
    + rewrite filter_cons_True by (simpl; tauto).
      rewrite (filter_cons_True (λ x, ¬ Q x)) by tauto. done.
Qed.

(** When no two original rows agree on the common columns, the join emits
    one row per candidate, flagged by whether the candidate leaks. *)
Lemma filter_eq_NoDup (right : list row) (l : row) :
  NoDup right →
  filter (λ r, r = l) right = if decide (l ∈ right) then [l] else [].
Proof.
  induction 1 as [|r right Hnotin Hnd IH]; [done|].
  destruct (decide (r = l)) as [->|Hne].
  - rewrite filter_cons_True by done. rewrite decide_True by left.
    rewrite IH, decide_False by done. done.
  - rewrite filter_cons_False by done. rewrite IH.
    destruct (decide (l ∈ right)) as [Hin|Hin].
    + rewrite decide_True by (by right). done.
    + rewrite decide_False; [done|]. rewrite elem_of_cons. naive_solver.
Qed.

Lemma merge_left_NoDup (ls rs : list row) :
  NoDup rs →
  merge_left ls rs
  = (λ l, (l, if decide (l ∈ rs) then both else left_only)) <$> ls.
Proof.
  intros Hnd. unfold merge_left. induction ls as [|l ls IH]; [done|].
  cbn [flat_map]. rewrite IH, filter_eq_NoDup, fmap_cons by done.
  destruct (decide (l ∈ rs)); reflexivity.
Qed.

Lemma leaked_NoDup o samples i r :
  NoDup (select (columns o) (common_cols o samples) <$> rows o) →
  rows samples !! i = Some r →
  i ∈ leaked o samples ↔ leaks o samples r.
Proof.
  intros Hnd Hr. unfold leaked. rewrite merge_left_NoDup by done.
  rewrite elem_of_leaked_indices, !list_lookup_fmap, Hr. simpl. unfold leaks. split.
  - intros (x & [= <-] & Hboth). simpl in Hboth. by destruct (decide _).
  - intros Hin. eexists. split; [done|]. simpl. by rewrite decide_True.
Qed.

Lemma leaked_lt o samples :
  NoDup (select (columns o) (common_cols o samples) <$> rows o) →
  Forall (λ i, (i < len samples)%nat) (leaked o samples).
Proof.
  intros Hnd. apply Forall_forall. intros i. unfold leaked.
  rewrite merge_left_NoDup by done. rewrite elem_of_leaked_indices.
  intros (x & Hx & _). apply lookup_lt_Some in Hx. by rewrite !length_fmap in Hx.
Qed.

(** The key columns have the same kind on both sides: a common column
    holds a string in the batch exactly when it holds one in the original
    frame. *)
Definition same_kinds (original_df samples : DataFrame) : Prop :=
  ∀ c, c ∈ common_cols original_df samples →
       holds_str (column samples c) = holds_str (column original_df c).

Lemma same_kinds_no_clash o samples : same_kinds o samples → key_types_clash o samples = false.
Proof.
  intros Hkinds. unfold key_types_clash.
  destruct (existsb _ _) eqn:Hex; [|done].
  apply existsb_exists in Hex as (c & Hc & Hclash).
  apply list_elem_of_In, Hkinds in Hc.
  unfold keys_clash, string_like in Hclash.
  destruct (column samples c) as [|v l], (column o c) as [|v' l']; try done.
  rewrite Hc in Hclash.
  by destruct (holds_str (v' :: l')), (existsb is_int (v :: l)), (existsb is_int (v' :: l')).
Qed.

(** The leakage stage when it joins, case by case. *)
Lemma leakage_stage_eq o samples :
  is_empty o = false →
  common_cols o samples ≠ [] →
  leakage_stage (Some o) samples =
  if key_types_clash o samples then ([], inl ValueError)
  else if (0 <? length (leaked o samples))%nat
       then ([WarnLeaked (length (leaked o samples))], drop_labels (leaked o samples) samples)
       else ([InfoNoLeak], inr samples).
Proof.
  intros Hne Hcommon. unfold leakage_stage. rewrite Hne.
  destruct (common_cols o samples) as [|c cs] eqn:Hcs; [done|]. simpl length.
  replace (0 <? S (length cs))%nat with true by (symmetry; apply Nat.ltb_lt; lia).
  unfold merge, leaked. rewrite Hcs.
  destruct (key_types_clash o samples); [done|].
  unfold lift. rewrite bind_inr. cbn [app fst snd].
  destruct (0 <? length _)%nat; [|done].
  rewrite bind_eq. cbn [log lift fst snd app]. done.
Qed.

(** The filter on an original dataset whose rows are pairwise different on
    the common columns, when the key columns pass the check of [merge]:
    exactly the leaking rows go, the others stay in order. *)
Lemma leakage_stage_distinct_original o samples :
  is_empty o = false →
  common_cols o samples ≠ [] →
  NoDup (select (columns o) (common_cols o samples) <$> rows o) →
  key_types_clash o samples = false →
  ∃ t, leakage_stage (Some o) samples
       = (t, inr (mkFrame (columns samples) (filter (λ r, ¬ leaks o samples r) (rows samples)))).
Proof.
  intros Hne Hcommon Hnd Hok. rewrite leakage_stage_eq, Hok by done.
  assert (∀ i r, rows samples !! i = Some r →
                 (i ∈ leaked o samples ↔ leaks o samples r)) as Hlab.
  { intros i r Hr. by apply leaked_NoDup. }
  pose proof (drop_positions (leaks o samples) (leaked o samples) (rows samples) Hlab) as Hdrop.
  destruct (leaked o samples) as [|i0 l0] eqn:Hleak; simpl.
  - eexists. f_equal. f_equal. destruct samples as [cols rs]; simpl in *. f_equal.
    symmetry. apply (filter_all (λ r, ¬ leaks o (mkFrame cols rs) r)).
    apply Forall_forall. intros r Hr Hleaks.
    apply list_elem_of_lookup in Hr as [i Hi].
    apply (Hlab i r Hi) in Hleaks. by apply elem_of_nil in Hleaks.
  - eexists. unfold drop_labels.
    rewrite decide_True by (rewrite <- Hleak; by apply leaked_lt).
    simpl. by rewrite Hdrop.
Qed.

(** The filter on an original dataset that repeats a row.  The candidate
    [100] matches two original rows, so the join emits it twice and the second
    copy takes the label of the candidate [1], which is dropped although it
    matches nothing: with [left_batch] the filter keeps only [200], where
    removing the leaking rows keeps [1] and [200]; with [late_batch] the labels
    run past the batch and [drop] raises [KeyError]. *)
Definition amounts (l : list Z) : DataFrame :=
  mkFrame ["amount"%string] ((λ z, [VInt z]) <$> l).

(** C2 (leakage filter): at this input the code drops a row that does not
    leak, and at the second one it raises. *)
Theorem leakage_filter_repeated_original_row :
  let original := amounts [100; 100] in
  leakage_stage (Some original) (amounts [100; 1; 200])
    = ([WarnLeaked 2], inr (amounts [200]))
  ∧ filter (λ r, ¬ leaks original (amounts [100; 1; 200]) r) (rows (amounts [100; 1; 200]))
    = rows (amounts [1; 200])
  ∧ leakage_stage (Some original) (amounts [1; 2; 100]) = ([WarnLeaked 2], inl KeyError).
Proof. vm_compute. done. Qed.

(** C1 (no leakage): a run whose output is a row of the original dataset.
    The model returns eleven rows for the eleven requested; the original
    dataset repeats the row [100].  The join labels the leaking candidates
    [0], [1] and [3], so [drop] removes the candidates [100], [1] and [2] and
    keeps the leaking candidate [200], which is the row written. *)
Definition repeating_original : DataFrame := amounts [100; 100; 200].

Definition eleven_rows : world :=
  mkWorld true (λ _ _, Some (amounts [100; 1; 200; 2; 3; 4; 5; 6; 7; 8; 9]))
          (λ _ _ _ count, seq 0 count) (λ _, None) (λ _, true).

Theorem generate_writes_an_original_row :
  generate eleven_rows 1 (Some repeating_original) None
    = ([InfoLoadOriginal; InfoPass 1 11; CallSample 11; WarnLeaked 3; InfoFinal 1;
        WriteCsv (amounts [200]); InfoComplete], inr tt)
  ∧ is_empty repeating_original = false
  ∧ common_cols repeating_original (amounts [200]) = ["amount"%string]
  ∧ [VInt 200] ∈ rows (amounts [200])
  ∧ leaks repeating_original (amounts [200]) [VInt 200].
Proof. vm_compute. repeat split; by repeat constructor. Qed.

(** ** Runs *)

(** The states of the specification's loop, read off what a run logs: the
    sampling error marks [FAILED], the shortfall warning without it marks
    [PARTIAL]. *)
Inductive state : Type := SUCCESS | PARTIAL | FAILED.

Definition is_shortfall (e : event) : Prop :=
  match e with WarnShortfall _ _ => True | _ => False end.

#[global] Instance is_shortfall_dec e : Decision (is_shortfall e).
Proof. destruct e; simpl; apply _. Defined.

Definition terminal_state (t : list event) : state :=
  if decide (ErrorSampling ∈ t) then FAILED
  else if decide (Exists is_shortfall t) then PARTIAL
  else SUCCESS.

(** The events of the loop. *)
Definition loop_event (e : event) : Prop :=
  match e with
  | InfoPass _ _ | CallSample _ | ErrorSampling | WarnAnomalyJson | WarnLeaked _ | InfoNoLeak => True
  | _ => False
  end.

(** The events of a pass after its call to [model.sample]. *)
Definition stage_event (e : event) : Prop :=
  match e with
  | WarnAnomalyJson | WarnLeaked _ | InfoNoLeak => True
  | _ => False
  end.

Section Runs.
Variable w : world.
Variable count : Z.
Variable original_df : option DataFrame.
Variable anomaly_json : option string.

Local Abbreviation load_anomalies' := (load_anomalies w anomaly_json).
Local Abbreviation anomaly_stage' := (anomaly_stage w anomaly_json).
Local Abbreviation leakage_stage' := (leakage_stage original_df).
Local Abbreviation pass' := (pass w count original_df anomaly_json).
Local Abbreviation loop' := (loop w count original_df anomaly_json).
Local Abbreviation finish' := (finish w count).
Local Abbreviation generate' := (generate w count original_df anomaly_json).

Lemma load_anomalies_events : Forall stage_event (fst load_anomalies').
Proof.
  unfold load_anomalies. destruct anomaly_json as [s|]; [|constructor].
  destruct (decide (s = ""%string)); [constructor|].
  destruct (json_loads w s); simpl; repeat constructor.
Qed.

Lemma anomaly_stage_events k samples : Forall stage_event (fst (anomaly_stage' k samples)).
Proof.
  unfold anomaly_stage. apply Forall_bind; [apply load_anomalies_events|].
  intros [[|? ?]|] _; simpl; constructor.
Qed.

Lemma leakage_stage_events samples : Forall stage_event (fst (leakage_stage' samples)).
Proof.
  unfold leakage_stage. destruct original_df as [o|]; [|constructor].
  destruct (is_empty o); [constructor|].
  destruct (0 <? length (common_cols o samples))%nat; [|constructor].
  apply Forall_bind; [constructor|]. intros merged _.
  destruct (0 <? length (leaked_indices merged))%nat;
    apply Forall_bind; simpl; repeat constructor.
Qed.

(** The two filtering stages of a pass. *)
Definition stages (attempts : nat) (samples : DataFrame) : M DataFrame :=
  let* samples := anomaly_stage' attempts samples in leakage_stage' samples.

Lemma stages_events k samples : Forall stage_event (fst (stages k samples)).
Proof.
  unfold stages. apply Forall_bind; [apply anomaly_stage_events|].
  intros s _. apply leakage_stage_events.
Qed.

(** A pass, case by case. *)
Lemma pass_eq attempts g :
  pass' attempts g =
  match batch_size (count - Z.of_nat (len g)) with
  | inl e => ([], inl e)
  | inr n =>
      match model_sample w attempts n with
      | None => ([InfoPass attempts n; CallSample n; ErrorSampling], inr (inl g))
      | Some samples =>
          (InfoPass attempts n :: CallSample n :: fst (stages attempts samples),
           match snd (stages attempts samples) with
           | inl e => inl e
           | inr s => inr (inr (accumulate g s))
           end)
      end
  end.
Proof.
  unfold pass. destruct (batch_size _) as [e|n]; [done|].
  unfold lift. rewrite bind_inr. simpl.
  destruct (model_sample w attempts n) as [samples|]; [|done].
  unfold stages. rewrite !bind_eq. simpl.
  destruct (anomaly_stage' attempts samples) as [t1 [e1|s1]]; simpl.
  - by rewrite !app_nil_r.
  - destruct (leakage_stage' s1) as [t2 [e2|s2]]; simpl; by rewrite ?app_nil_r.
Qed.
Lemma stage_loop_event e : stage_event e → loop_event e.
Proof. by destruct e. Qed.

Lemma pass_events attempts g : Forall loop_event (fst (pass' attempts g)).
Proof.
  rewrite pass_eq. destruct (batch_size _) as [e|n]; [constructor|].
  destruct (model_sample w attempts n) as [samples|]; simpl; [|by repeat constructor].
  repeat (constructor; [done|]).
  eapply Forall_impl; [apply stages_events | apply stage_loop_event].
Qed.

Lemma loop_S fuel attempts g :
  loop' (S fuel) attempts g =
  if (Z.of_nat (len g) <? count) && (attempts <? max_attempts)%nat then
    let* r := pass' (S attempts) g in
    match r with
    | inl g => ret (S attempts, g)
    | inr g => loop' fuel (S attempts) g
    end
  else ret (attempts, g).
Proof. done. Qed.

Lemma loop_events fuel attempts g : Forall loop_event (fst (loop' fuel attempts g)).
Proof.
  revert attempts g. induction fuel as [|fuel IH]; intros attempts g; [constructor|].
  rewrite loop_S. destruct (_ && _); [|constructor].
  apply Forall_bind; [apply pass_events|].
  intros [g'|g'] _; [constructor | apply IH].
Qed.

(** One iteration of the loop, case by case. *)
Lemma loop_step fuel attempts g :
  Z.of_nat (len g) < count → (attempts < max_attempts)%nat →
  loop' (S fuel) attempts g =
  match batch_size (count - Z.of_nat (len g)) with
  | inl e => ([], inl e)
  | inr n =>
      match model_sample w (S attempts) n with
      | None => ([InfoPass (S attempts) n; CallSample n; ErrorSampling], inr (S attempts, g))
      | Some samples =>
          match snd (stages (S attempts) samples) with
          | inl e => (InfoPass (S attempts) n :: CallSample n :: fst (stages (S attempts) samples),
                      inl e)
          | inr s =>
              (InfoPass (S attempts) n :: CallSample n :: fst (stages (S attempts) samples)
                 ++ fst (loop' fuel (S attempts) (accumulate g s)),
               snd (loop' fuel (S attempts) (accumulate g s)))
          end
      end
  end.
Proof.
  intros Hlen Hatt. rewrite loop_S.
  replace (Z.of_nat (len g) <? count) with true by (symmetry; apply Z.ltb_lt; lia).
  replace (attempts <? max_attempts)%nat with true by (symmetry; apply Nat.ltb_lt; lia).
  simpl andb. cbv iota. rewrite pass_eq.
  destruct (batch_size _) as [e|n]; [done|].
  destruct (model_sample w (S attempts) n) as [samples|]; [|done].
  destruct (snd (stages (S attempts) samples)) as [e|s]; [done|].
  by rewrite bind_inr.
Qed.

Lemma loop_stop fuel attempts g :
  ¬ (Z.of_nat (len g) < count ∧ (attempts < max_attempts)%nat) →
  loop' fuel attempts g = ([], inr (attempts, g)).
Proof.
  intros Hstop. destruct fuel as [|fuel]; [done|]. rewrite loop_S.
  destruct (Z.ltb_spec (Z.of_nat (len g)) count), (Nat.ltb_spec attempts max_attempts);
    simpl; try done. tauto.
Qed.

(** The loop ends within its budget: any bound that covers the passes
    still allowed gives the same result. *)
Lemma loop_fuel fuel fuel' attempts g :
  (max_attempts - attempts ≤ fuel)%nat → (max_attempts - attempts ≤ fuel')%nat →
  loop' fuel attempts g = loop' fuel' attempts g.
Proof.
  revert fuel' attempts g. induction fuel as [|fuel IH]; intros fuel' attempts g Hf Hf'.
  - rewrite !loop_stop; [done | lia | lia].
  - destruct (decide (Z.of_nat (len g) < count ∧ (attempts < max_attempts)%nat)) as [[H1 H2]|Hstop];
      [|by rewrite !loop_stop].
    destruct fuel' as [|fuel']; [lia|].
    rewrite !loop_step by done.
    destruct (batch_size _) as [e|n]; [done|].
    destruct (model_sample w (S attempts) n) as [samples|]; [|done].
    destruct (snd (stages (S attempts) samples)) as [e|s]; [done|].
    rewrite (IH fuel' (S attempts)) by lia. done.
Qed.
(** How the loop ends: within the budget, and either with enough rows, or
    with the budget used up, or right after a failed call to the model. *)
Lemma loop_inv fuel attempts g t n g' :
  (attempts ≤ max_attempts)%nat → (max_attempts - attempts ≤ fuel)%nat →
  loop' fuel attempts g = (t, inr (n, g')) →
  (attempts ≤ n ≤ max_attempts)%nat
  ∧ (count ≤ Z.of_nat (len g') ∨ n = max_attempts
     ∨ ((∃ t', t = t' ++ [ErrorSampling]) ∧ Z.of_nat (len g') < count))
  ∧ (n = attempts ∨ ∃ m, InfoPass n m ∈ t).
Proof.
  revert attempts g t. induction fuel as [|fuel IH]; intros attempts g t Hle Hfuel Hloop.
  - simpl in Hloop. injection Hloop as <- <- <-. repeat split; [lia|lia|right; left; lia|by left].
  - destruct (decide (Z.of_nat (len g) < count ∧ (attempts < max_attempts)%nat)) as [[H1 H2]|Hstop].
    + rewrite loop_step in Hloop by done.
      destruct (batch_size _) as [e|m]; [done|].
      destruct (model_sample w (S attempts) m) as [samples|].
      * destruct (snd (stages (S attempts) samples)) as [e|s]; [done|].
        destruct (loop' fuel (S attempts) (accumulate g s)) as [tl rl] eqn:Hl.
        simpl in Hloop. injection Hloop as <- ->.
        destruct (IH _ _ _ H2 ltac:(lia) Hl) as ((Hn1 & Hn2) & Hexit & Hpass).
        split; [lia|]. split.
        -- destruct Hexit as [?|[?|[[t' ->] ?]]]; [by left | by right; left |].
           right; right. split; [|done].
           exists (InfoPass (S attempts) m :: CallSample m
                     :: fst (stages (S attempts) samples) ++ t').
           by rewrite !app_comm_cons, app_assoc.
        -- right. destruct Hpass as [->|[m' Hm']].
           ++ exists m. left.
           ++ exists m'. do 2 right. apply elem_of_app. by right.
      * injection Hloop as <- <- <-. split; [lia|]. split.
        -- right; right. split; [|done]. by exists [InfoPass (S attempts) m; CallSample m].
        -- right. exists m. left.
    + rewrite loop_stop in Hloop by done. injection Hloop as <- <- <-.
      split; [lia|]. split; [|by left].
      destruct (decide (count ≤ Z.of_nat (len g))); [by left|]. right; left. lia.
Qed.


(** The frame that is written: [generated_data] after the trim. *)
Definition trimmed (g : DataFrame) : DataFrame :=
  if count <? Z.of_nat (len g) then head count g else g.

Lemma finish_eq g :
  finish' g =
  (InfoFinal (len (trimmed g))
     :: (if Z.of_nat (len (trimmed g)) <? count then [WarnShortfall count max_attempts] else [])
     ++ (if to_csv_ok w (trimmed g) then [WriteCsv (trimmed g); InfoComplete] else [ErrorSave]),
   if to_csv_ok w (trimmed g) then inr tt else inl (SystemExit 1)).
Proof.
  unfold finish. fold (trimmed g).
  destruct (Z.of_nat (len (trimmed g)) <? count), (to_csv_ok w (trimmed g)); done.
Qed.

(** The record logged before the loop. *)
Definition preamble : list event :=
  match original_df with Some _ => [InfoLoadOriginal] | None => [] end.

Lemma generate_eq :
  model_loads w = true →
  generate' =
  (preamble ++ fst (loop' max_attempts 0%nat empty_frame)
     ++ match snd (loop' max_attempts 0%nat empty_frame) with
        | inl _ => []
        | inr r => fst (finish' (snd r))
        end,
   match snd (loop' max_attempts 0%nat empty_frame) with
   | inl e => inl e
   | inr r => snd (finish' (snd r))
   end).
Proof.
  intros Hload. unfold generate. rewrite Hload.
  assert ((match original_df with Some _ => log InfoLoadOriginal | None => ret tt end)
          = (preamble, inr tt)) as -> by (unfold preamble; by destruct original_df).
  rewrite bind_inr, bind_eq. by destruct (snd (loop' _ _ _)).
Qed.

Lemma generate_no_model :
  model_loads w = false → generate' = ([ErrorLoadModel], inl (SystemExit 1)).
Proof. intros Hload. unfold generate. by rewrite Hload. Qed.

Lemma trimmed_enough g :
  0 ≤ count ≤ Z.of_nat (len g) →
  trimmed g = mkFrame (columns g) (take (Z.to_nat count) (rows g))
  ∧ Z.of_nat (len (trimmed g)) = count.
Proof.
  intros Hc. unfold trimmed, head.
  destruct (Z.ltb_spec count (Z.of_nat (len g))) as [Hlt|Hge].
  - replace (0 <=? count) with true by (symmetry; apply Z.leb_le; lia).
    split; [done|]. unfold len; simpl. rewrite length_take. unfold len in *. lia.
  - assert (Z.to_nat count = len g) as -> by lia.
    split; [|lia]. unfold len. rewrite firstn_all. by destruct g.
Qed.

Lemma trimmed_short g : Z.of_nat (len g) ≤ count → trimmed g = g.
Proof. intros Hc. unfold trimmed. by destruct (Z.ltb_spec count (Z.of_nat (len g))); [lia|]. Qed.
End Runs.

(** ** The generation loop *)

Lemma preamble_events original_df e : e ∈ preamble original_df → e = InfoLoadOriginal.
Proof.
  unfold preamble. destruct original_df; rewrite ?elem_of_cons, elem_of_nil; naive_solver.
Qed.


(** C5 (exact count or best effort, as the code has it): take a run with a
    positive target [T] whose model loads.  Nothing catches an exception
    raised in the loop outside [model.sample] (by the size of the request,
    a rule of [apply_anomalies], [merge] or [drop]): when one escapes, the
    run ends with it, having written no file and logged no shortfall.
    Otherwise the loop ends within the budget of ten passes, holding the
    accumulated frame [g] after [n] passes.  If [g] has at least [T] rows, the
    frame written is the first [T] rows of [g], in their order, and no
    shortfall is reported.  If [g] has fewer than [T] rows, the loop used up
    its budget or stopped at a failed call to the model, the frame written is
    [g] itself, and the shortfall warning is logged before it.  In both cases
    the run ends normally when the file can be written, and with exit
    status 1 and no file when it cannot. *)
Theorem exact_count_or_best_effort w T original_df anomaly_json :
  0 < T →
  model_loads w = true →
  let run := generate w T original_df anomaly_json in
  let pre := preamble original_df in
  ∃ t r, loop w T original_df anomaly_json max_attempts 0 empty_frame = (t, r) ∧
    match r with
    | inl e =>
        run = (pre ++ t, inl e)
        ∧ (∀ df, WriteCsv df ∉ fst run)
        ∧ WarnShortfall T max_attempts ∉ fst run
    | inr (n, g) =>
        (n ≤ max_attempts)%nat
        ∧ (T ≤ Z.of_nat (len g) →
             let out := mkFrame (columns g) (take (Z.to_nat T) (rows g)) in
             Z.of_nat (len out) = T
             ∧ (to_csv_ok w out = true →
                  run = (pre ++ t ++ [InfoFinal (len out); WriteCsv out; InfoComplete], inr tt))
             ∧ (to_csv_ok w out = false →
                  run = (pre ++ t ++ [InfoFinal (len out); ErrorSave], inl (SystemExit 1))))
        ∧ (Z.of_nat (len g) < T →
             (n = max_attempts ∨ ∃ t', t = t' ++ [ErrorSampling])
             ∧ (to_csv_ok w g = true →
                  run = (pre ++ t ++ [InfoFinal (len g); WarnShortfall T max_attempts;
                                      WriteCsv g; InfoComplete], inr tt))
             ∧ (to_csv_ok w g = false →
                  run = (pre ++ t ++ [InfoFinal (len g); WarnShortfall T max_attempts; ErrorSave],
                         inl (SystemExit 1))))
    end.
Proof.
  intros HT Hload run pre.
  destruct (loop w T original_df anomaly_json max_attempts 0 empty_frame) as [t r] eqn:Hloop.
  exists t, r. split; [done|].
  destruct r as [e|[n g]].
  - assert (run = (pre ++ t, inl e)) as Hrun.
    { unfold run. rewrite generate_eq by done. rewrite Hloop. cbn [fst snd].
      by rewrite app_nil_r. }
    split; [done|]. rewrite Hrun. cbn [fst].
    pose proof (loop_events w T original_df anomaly_json max_attempts 0 empty_frame) as Hev.
    rewrite Hloop in Hev. cbn [fst] in Hev.
    split.
    + intros df [Hin|Hin]%elem_of_app; [by apply preamble_events in Hin|].
      eapply Forall_forall in Hev; [|exact Hin]. done.
    + intros [Hin|Hin]%elem_of_app; [by apply preamble_events in Hin|].
      eapply Forall_forall in Hev; [|exact Hin]. done.
  - assert (run = (pre ++ t ++ fst (finish w T g), snd (finish w T g))) as Hrun.
    { unfold run. rewrite generate_eq by done. by rewrite Hloop. }
    destruct (loop_inv w T original_df anomaly_json max_attempts 0%nat empty_frame t n g)
      as ((_ & Hn) & Hexit & _); [unfold max_attempts; lia | lia | done |].
    split; [done|]. split.
    + intros Hge out. destruct (trimmed_enough T g ltac:(lia)) as [Htrim Hlen].
      fold out in Htrim. rewrite Htrim in Hlen. split; [done|].
      rewrite Hrun, finish_eq, Htrim.
      replace (Z.of_nat (len out) <? T) with false by (symmetry; apply Z.ltb_ge; lia).
      split; intros ->; done.
    + intros Hlt. split.
      * destruct Hexit as [?|[?|[? _]]]; [lia | by left | by right].
      * rewrite Hrun, finish_eq, trimmed_short by lia.
        replace (Z.of_nat (len g) <? T) with true by (symmetry; apply Z.ltb_lt; lia).
        split; intros ->; done.
Qed.

(** C6 (empty target): for [count <= 0] the loop makes no pass, so the model
    is never sampled; when the model loads and the file can be written, the
    run writes the empty frame, logs neither the sampling error nor the
    shortfall warning, and ends normally. *)
Theorem empty_target_short_circuit w count original_df anomaly_json :
  count ≤ 0 →
  let run := generate w count original_df anomaly_json in
  loop w count original_df anomaly_json max_attempts 0 empty_frame = ([], inr (0%nat, empty_frame))
  ∧ (∀ n, CallSample n ∉ fst run)
  ∧ (model_loads w = true → to_csv_ok w empty_frame = true →
       run = (preamble original_df ++ [InfoFinal 0; WriteCsv empty_frame; InfoComplete], inr tt)
       ∧ terminal_state (fst run) = SUCCESS).
Proof.
  intros Hc run.
  assert (loop w count original_df anomaly_json max_attempts 0 empty_frame
          = ([], inr (0%nat, empty_frame))) as Hloop.
  { apply loop_stop. simpl. lia. }
  assert (trimmed count empty_frame = empty_frame) as Htrim.
  { unfold trimmed, head. simpl. destruct (count <? _); [|done].
    destruct (0 <=? count); [|done]. by rewrite take_nil. }
  assert (model_loads w = true →
          run = (preamble original_df
                   ++ InfoFinal 0 :: (if to_csv_ok w empty_frame
                                      then [WriteCsv empty_frame; InfoComplete] else [ErrorSave]),
                 if to_csv_ok w empty_frame then inr tt else inl (SystemExit 1))) as Hrun.
  { intros Hload. unfold run. rewrite generate_eq, Hloop by done. simpl.
    rewrite finish_eq, Htrim. simpl.
    replace (Z.of_nat (len empty_frame) <? count) with false; [done|].
    symmetry; apply Z.ltb_ge. simpl. lia. }
  split; [done|]. split.
  - intros n. destruct (model_loads w) eqn:Hload.
    + rewrite Hrun by done. simpl. unfold preamble.
      destruct original_df, (to_csv_ok w empty_frame); simpl;
        rewrite !elem_of_cons, elem_of_nil; naive_solver.
    + unfold run. rewrite generate_no_model by done. simpl.
      rewrite elem_of_cons, elem_of_nil. naive_solver.
  - intros Hload Hcsv. rewrite Hrun by done. rewrite Hcsv. split; [done|].
    unfold preamble. by destruct original_df.
Qed.

(** ** Failures *)


Lemma finish_events w count g e :
  e ∈ fst (finish w count g) →
  e = InfoFinal (len (trimmed count g))
  ∨ (e = WarnShortfall count max_attempts ∧ Z.of_nat (len (trimmed count g)) < count)
  ∨ (e = WriteCsv (trimmed count g) ∧ to_csv_ok w (trimmed count g) = true)
  ∨ (e = InfoComplete ∧ to_csv_ok w (trimmed count g) = true)
  ∨ (e = ErrorSave ∧ to_csv_ok w (trimmed count g) = false).
Proof.
  rewrite finish_eq. simpl.
  destruct (Z.ltb_spec (Z.of_nat (len (trimmed count g))) count),
           (to_csv_ok w (trimmed count g));
    simpl; rewrite ?elem_of_cons, elem_of_nil; naive_solver.
Qed.

(** The events of a run whose model loads: those of the loop, then those of
    [finish] when the loop returned. *)
Lemma generate_events w count original_df anomaly_json e :
  model_loads w = true →
  e ∈ fst (generate w count original_df anomaly_json) →
  e = InfoLoadOriginal
  ∨ (loop_event e ∧ e ∈ fst (loop w count original_df anomaly_json max_attempts 0 empty_frame))
  ∨ ∃ n g, loop w count original_df anomaly_json max_attempts 0 empty_frame
             = (fst (loop w count original_df anomaly_json max_attempts 0 empty_frame), inr (n, g))
           ∧ e ∈ fst (finish w count g).
Proof.
  intros Hload. rewrite generate_eq by done. cbn [fst snd].
  rewrite !elem_of_app. intros [Hpre|[Hl|Hfin]].
  - left. by eapply preamble_events.
  - right; left. split; [|done].
    eapply Forall_forall in Hl; [exact Hl | apply loop_events].
  - right; right.
    destruct (loop w count original_df anomaly_json max_attempts 0 empty_frame)
      as [t [ex|[n g]]]; simpl in *; [by apply elem_of_nil in Hfin|]. eauto.
Qed.




(** ** binary64: [int * float] and [int(...)] *)

Lemma digits2_pos_bounds p :
  2 ^ (Z.pos (digits2_pos p) - 1) ≤ Z.pos p < 2 ^ Z.pos (digits2_pos p).
Proof.
  induction p as [p IH|p IH|]; simpl digits2_pos; [| |simpl; lia].
  - rewrite Pos2Z.inj_succ.
    replace (Z.succ (Z.pos (digits2_pos p)) - 1) with (Z.succ (Z.pos (digits2_pos p) - 1)) by lia.
    rewrite !Z.pow_succ_r by lia. lia.
  - rewrite Pos2Z.inj_succ.
    replace (Z.succ (Z.pos (digits2_pos p)) - 1) with (Z.succ (Z.pos (digits2_pos p) - 1)) by lia.
    rewrite !Z.pow_succ_r by lia. lia.
Qed.

Lemma digits2_pos_unique p d :
  2 ^ (d - 1) ≤ Z.pos p < 2 ^ d → Z.pos (digits2_pos p) = d.
Proof.
  intros [Hlo Hhi]. pose proof (digits2_pos_bounds p) as [Hlo' Hhi'].
  assert (0 < d) as Hd.
  { destruct (Z.lt_trichotomy d 0) as [?|[->|?]]; [|simpl in Hhi; lia|done].
    rewrite Z.pow_neg_r in Hhi by lia. lia. }
  destruct (Z.lt_trichotomy (Z.pos (digits2_pos p)) d) as [Hlt|[Heq|Hgt]]; [|done|].
  - assert (2 ^ Z.pos (digits2_pos p) ≤ 2 ^ (d - 1)) by (apply Z.pow_le_mono_r; lia). lia.
  - assert (2 ^ d ≤ 2 ^ (Z.pos (digits2_pos p) - 1)) by (apply Z.pow_le_mono_r; lia). lia.
Qed.

Lemma iter_xO p k : Z.pos (Pos.iter xO p k) = Z.pos p * 2 ^ Z.pos k.
Proof.
  induction k as [|k IH] using Pos.peano_ind.
  - simpl. lia.
  - rewrite Pos.iter_succ, Pos2Z.inj_xO, IH, Pos2Z.inj_succ, Z.pow_succ_r by lia. lia.
Qed.

Lemma shr_1_m rec : 0 ≤ shr_m rec → shr_m (shr_1 rec) = shr_m rec / 2.
Proof.
  destruct rec as [m r s]. cbn [shr_m]. intros Hm.
  destruct m as [|[p|p|]|p]; cbn [shr_1 shr_m]; try lia; try done.
  - apply Z.div_unique with 1; lia.
  - apply Z.div_unique with 0; lia.
Qed.

Lemma iter_shr_1_m p rec :
  0 ≤ shr_m rec → shr_m (SpecFloat.iter_pos shr_1 p rec) = shr_m rec / 2 ^ Z.pos p.
Proof.
  revert rec. induction p as [p IH|p IH|]; intros rec Hm; cbn [SpecFloat.iter_pos].
  - assert (0 ≤ shr_m (shr_1 rec)) as H1 by (rewrite shr_1_m by done; apply Z.div_pos; lia).
    assert (0 ≤ shr_m (SpecFloat.iter_pos shr_1 p (shr_1 rec))) as H2
      by (rewrite IH by done; apply Z.div_pos; [done|apply Z.pow_pos_nonneg; lia]).
    rewrite IH, IH, shr_1_m by done.
    rewrite !Z.div_div by (try apply Z.pow_pos_nonneg; lia).
    f_equal. replace (Z.pos p~1) with (Z.pos p + Z.pos p + 1) by lia.
    rewrite !Z.pow_add_r by lia. ring.
  - assert (0 ≤ shr_m (SpecFloat.iter_pos shr_1 p rec)) as H2
      by (rewrite IH by done; apply Z.div_pos; [done|apply Z.pow_pos_nonneg; lia]).
    rewrite IH, IH by done.
    rewrite !Z.div_div by (try apply Z.pow_pos_nonneg; lia).
    f_equal. replace (Z.pos p~0) with (Z.pos p + Z.pos p) by lia.
    rewrite !Z.pow_add_r by lia. ring.
  - rewrite shr_1_m by done. done.
Qed.

Lemma round_nearest_even_range m l :
  round_nearest_even m l = m ∨ round_nearest_even m l = m + 1.
Proof. destruct l as [|[]]; simpl; try tauto. destruct (Z.even m); tauto. Qed.

(** [shr_fexp] on a mantissa of [D] digits in the normal range. *)
Lemma shr_fexp_normal (m : positive) e l :
  let D := Z.pos (digits2_pos m) in
  -1074 ≤ D + e - 53 →
  ∃ rec, shr_fexp 53 1024 (Z.pos m) e l = (rec, e + Z.max 0 (D - 53))
         ∧ shr_m rec = Z.pos m / 2 ^ Z.max 0 (D - 53)
         ∧ (D ≤ 53 → rec = shr_record_of_loc (Z.pos m) l).
Proof.
  intros D Hmin. unfold shr_fexp, shr, fexp, emin. cbn [Zdigits2]. fold D.
  replace (Z.max (D + e - 53) (3 - 1024 - 53) - e) with (D - 53) by lia.
  assert (shr_m (shr_record_of_loc (Z.pos m) l) = Z.pos m) as Hrec by (by destruct l as [|[]]).
  destruct (D - 53) as [|k|k] eqn:Hk.
  - eexists. split; [by rewrite Z.add_0_r|]. split; [|done].
    rewrite Hrec. simpl. by rewrite Z.div_1_r.
  - eexists. split; [by rewrite Z.max_r by lia|]. split; [|lia].
    rewrite iter_shr_1_m by (rewrite Hrec; lia). rewrite Hrec. by rewrite Z.max_r by lia.
  - eexists. split; [by rewrite Z.max_l, Z.add_0_r by lia|]. split; [|done].
    rewrite Hrec, Z.max_l by lia. simpl. by rewrite Z.div_1_r.
Qed.

Lemma pow2_pos k : 0 ≤ k → 0 < 2 ^ k.
Proof. intros. apply Z.pow_pos_nonneg; lia. Qed.

(** Rounding a mantissa of at least 53 digits in the normal range: the
    result is the mantissa shifted down to 53 digits, or that plus one. *)
Lemma binary_round_aux_normal (mx : positive) ex :
  let D := Z.pos (digits2_pos mx) in
  53 ≤ D → -1074 ≤ D + ex - 53 → D + ex ≤ 1023 →
  let q := Z.pos mx / 2 ^ (D - 53) in
  ∃ m e, binary_round_aux 53 1024 false (Z.pos mx) ex loc_Exact = S754_finite false m e
    ∧ (((Z.pos m = q ∨ Z.pos m = q + 1) ∧ e = ex + (D - 53))
       ∨ (2 * Z.pos m = q + 1 ∧ e = ex + (D - 53) + 1))
    ∧ (D = 53 → m = mx ∧ e = ex).
Proof.
  intros D HD Hmin Hmax q.
  pose proof (digits2_pos_bounds mx) as [Hlo Hhi]. fold D in Hlo, Hhi.
  pose proof (pow2_pos (D - 53) ltac:(lia)) as Hs.
  assert (2 ^ 52 ≤ q < 2 ^ 53) as Hq.
  { assert (2 ^ (D - 1) = 2 ^ 52 * 2 ^ (D - 53)) as E1
      by (rewrite <- Z.pow_add_r by lia; f_equal; lia).
    assert (2 ^ D = 2 ^ 53 * 2 ^ (D - 53)) as E2
      by (rewrite <- Z.pow_add_r by lia; f_equal; lia).
    rewrite E1 in Hlo. rewrite E2 in Hhi. unfold q. split.
    - apply Z.div_le_lower_bound; lia.
    - apply Z.div_lt_upper_bound; lia. }
  change (2 ^ 52) with 4503599627370496 in Hq. change (2 ^ 53) with 9007199254740992 in Hq.
  unfold binary_round_aux.
  destruct (shr_fexp_normal mx ex loc_Exact) as (rec & Heq & Hm & Hex); [done|].
  fold D in Heq, Hm, Hex. rewrite Z.max_r in Heq, Hm by lia. fold q in Hm.
  rewrite Heq.
  pose proof (round_nearest_even_range (shr_m rec) (loc_of_shr_record rec)) as Hr.
  destruct (round_nearest_even (shr_m rec) (loc_of_shr_record rec)) as [|m1|m1] eqn:Hm1;
    rewrite Hm in Hr; [lia| |lia].
  assert (D = 53 → m1 = mx) as Hexact.
  { intros H53. rewrite Hex in Hm1 by lia. simpl in Hm1. injection Hm1 as ->. done. }
  destruct (decide (Z.pos m1 < 9007199254740992)) as [Hlt|Hge].
  - assert (Z.pos (digits2_pos m1) = 53) as HD1 by (apply digits2_pos_unique; change (2 ^ (53 - 1)) with 4503599627370496;
          change (2 ^ 53) with 9007199254740992; lia).
    destruct (shr_fexp_normal m1 (ex + (D - 53)) loc_Exact) as (rec2 & Heq2 & Hm2 & Hex2); [lia|].
    rewrite HD1 in Heq2, Hm2, Hex2. rewrite Heq2, Hex2 by lia. simpl shr_m.
    replace (ex + (D - 53) + Z.max 0 (53 - 53) <=? 1024 - 53) with true
      by (symmetry; apply Z.leb_le; lia).
    eexists _, _. split; [done|]. split; [left; split; [lia|]; lia|].
    intros H53. split; [by apply Hexact | lia].
  - assert (Z.pos m1 = 9007199254740992) as Hm1eq by lia.
    assert (Z.pos (digits2_pos m1) = 54) as HD1
      by (apply digits2_pos_unique; change (2 ^ (54 - 1)) with 9007199254740992;
          change (2 ^ 54) with 18014398509481984; lia).
    destruct (shr_fexp_normal m1 (ex + (D - 53)) loc_Exact) as (rec2 & Heq2 & Hm2 & Hex2); [lia|].
    rewrite HD1 in Heq2, Hm2. rewrite Heq2.
    rewrite Hm1eq in Hm2.
    change (9007199254740992 / 2 ^ Z.max 0 (54 - 53)) with 4503599627370496 in Hm2.
    rewrite Hm2.
    replace (ex + (D - 53) + Z.max 0 (54 - 53) <=? 1024 - 53) with true
      by (symmetry; apply Z.leb_le; lia).
    eexists _, _. split; [done|]. split.
    + right. split; [|lia]. lia.
    + intros H53. exfalso. specialize (Hexact H53). subst m1.
      unfold q in Hq. rewrite H53 in Hq. change (2 ^ (53 - 53)) with 1 in Hq.
      rewrite Z.div_1_r in Hq. lia.
Qed.

Lemma pow2_lt_inv a b : 0 ≤ b → 2 ^ a < 2 ^ b → a < b.
Proof. intros Hb H. apply (Z.pow_lt_mono_r_iff 2); [lia|done|done]. Qed.

Lemma div_between a b k : 0 < b → k * b ≤ a < (k + 1) * b → a / b = k.
Proof. intros Hb [H1 H2]. symmetry. apply Z.div_unique with (a - k * b); lia. Qed.

(** [float(n)] for a positive [n] of at most 53 digits is exact. *)
Lemma float_of_int_exact (n : positive) :
  let d := Z.pos (digits2_pos n) in
  d ≤ 53 →
  ∃ mz, float_of_int (Z.pos n) = inr (S754_finite false mz (d - 53))
        ∧ Z.pos mz = Z.pos n * 2 ^ (53 - d)
        ∧ Z.pos (digits2_pos mz) = 53.
Proof.
  intros d Hd. pose proof (digits2_pos_bounds n) as [Hlo Hhi]. fold d in Hlo, Hhi.
  assert (0 < d) as Hd0 by (unfold d; lia).
  assert (∃ mz, shl_align n 0 (fexp 53 1024 (d + 0)) = (mz, d - 53)
                ∧ Z.pos mz = Z.pos n * 2 ^ (53 - d)) as (mz & Hal & Hmz).
  { unfold shl_align, fexp, emin.
    replace (Z.max (d + 0 - 53) (3 - 1024 - 53) - 0) with (d - 53) by lia.
    destruct (d - 53) as [|k|k] eqn:Hk; [|lia|].
    - exists n. split; [f_equal; lia|]. replace (53 - d) with 0 by lia. simpl. lia.
    - exists (Pos.iter xO n k). split; [f_equal; lia|].
      rewrite iter_xO. f_equal. f_equal. lia. }
  assert (Z.pos (digits2_pos mz) = 53) as HD.
  { apply digits2_pos_unique. rewrite Hmz.
    assert (2 ^ (53 - 1) = 2 ^ (d - 1) * 2 ^ (53 - d)) as ->
      by (rewrite <- Z.pow_add_r by lia; f_equal; lia).
    assert (2 ^ 53 = 2 ^ d * 2 ^ (53 - d)) as ->
      by (rewrite <- Z.pow_add_r by lia; f_equal; lia).
    pose proof (pow2_pos (53 - d) ltac:(lia)). split.
    - apply Z.mul_le_mono_nonneg_r; lia.
    - apply Z.mul_lt_mono_pos_r; lia. }
  exists mz. split; [|done].
  unfold float_of_int, binary_normalize, binary_round. fold d. rewrite Hal.
  destruct (binary_round_aux_normal mz (d - 53)) as (m & e & Heq & _ & Hex); rewrite ?HD; try lia.
  rewrite Heq. destruct (Hex HD) as [-> ->]. done.
Qed.

(** [int(n * 1.1)] is [n + n // 10], the floor of [11 n / 10], below [2 ^ 48].
    With [M] the mantissa of [1.1], [10 M = 11 * 2 ^ 52 + 4]: the exact
    product exceeds [11 n / 10] by [4 n / (10 * 2 ^ 52)], and rounding adds at
    most one unit in the last place; both stay below the distance of
    [11 n / 10] to the next integer, which is at least [1 / 10]. *)
Lemma int_mul_1_1 (n : Z) :
  0 < n < 2 ^ 48 →
  (let! p := int_mul n (NFloat float_1_1) in int p) = inr (n + n / 10).
Proof.
  intros [Hn0 Hn]. destruct n as [|n|n]; [lia| |lia].
  pose proof (digits2_pos_bounds n) as [Hlo Hhi].
  set (d := Z.pos (digits2_pos n)) in *.
  assert (0 < d) as Hd0 by (unfold d; lia).
  assert (d ≤ 48) as Hd.
  { assert (d - 1 < 48); [|lia]. apply pow2_lt_inv; lia. }
  destruct (float_of_int_exact n) as (mz & Hf & Hmz & HDz); [fold d; lia|]. fold d in Hf, Hmz.
  unfold int_mul. rewrite Hf. cbn [bind_exn].
  unfold float_1_1, SFmul. cbn [xorb].
  set (M := 4953959590107546%positive).
  pose proof (digits2_pos_bounds mz) as [Hzlo Hzhi]. rewrite HDz in Hzlo, Hzhi.
  change (2 ^ (53 - 1)) with 4503599627370496 in Hzlo.
  change (2 ^ 53) with 9007199254740992 in Hzhi.
  pose proof (digits2_pos_bounds (mz * M)) as [Hplo Hphi].
  set (D := Z.pos (digits2_pos (mz * M))) in *.
  assert (105 ≤ D ≤ 106) as HD.
  { rewrite Pos2Z.inj_mul in Hplo, Hphi. unfold M in Hplo, Hphi. split.
    - assert (104 < D); [|lia]. apply pow2_lt_inv; [unfold D; lia|].
      change (2 ^ 104) with (4503599627370496 * 4503599627370496). nia.
    - assert (D - 1 < 106); [|lia]. apply pow2_lt_inv; [lia|].
      change (2 ^ 106) with (9007199254740992 * 9007199254740992). nia. }
  destruct (binary_round_aux_normal (mz * M) (d - 53 + -52)) as (m & e & Heq & Hcases & _);
    fold D; try lia.
  fold D in Hcases.
  rewrite Heq. cbn [int cond_Zopp]. f_equal.
  (* the arithmetic *)
  set (A := 2 ^ (53 - d)) in *.
  set (S := 2 ^ (D - 53)) in *.
  set (t := 158 - d - D).
  assert (4 ≤ t) as Ht by (unfold t; lia).
  set (T := 2 ^ t).
  assert (0 < S) as HS by (apply pow2_pos; lia).
  assert (16 ≤ T) as HT by (change 16 with (2 ^ 4); apply Z.pow_le_mono_r; lia).
  assert (32 ≤ A) as HA by (change 32 with (2 ^ 5); apply Z.pow_le_mono_r; lia).
  assert (S * T = A * 4503599627370496) as HST.
  { unfold S, T, A, t. change 4503599627370496 with (2 ^ 52).
    rewrite <- !Z.pow_add_r by lia. f_equal. lia. }
  set (k := Z.pos n + Z.pos n / 10).
  assert (10 * k ≤ 11 * Z.pos n ≤ 10 * k + 9) as Hk.
  { unfold k. pose proof (Z.div_mod (Z.pos n) 10 ltac:(lia)).
    pose proof (Z.mod_pos_bound (Z.pos n) 10 ltac:(lia)). lia. }
  set (q := Z.pos (mz * M) / S) in *.
  assert (q * S ≤ Z.pos (mz * M) < (q + 1) * S) as Hq.
  { unfold q. pose proof (Z.div_mod (Z.pos (mz * M)) S ltac:(lia)).
    pose proof (Z.mod_pos_bound (Z.pos (mz * M)) S ltac:(lia)). lia. }
  rewrite Pos2Z.inj_mul in Hq. unfold M in Hq.
  assert (k * T ≤ q ∧ q + 1 < (k + 1) * T) as [Hq1 Hq2].
  { split.
    - assert (k * T * S ≤ Z.pos mz * 4953959590107546); [|nia].
      replace (k * T * S) with (k * A * 4503599627370496) by lia.
      rewrite Hmz. fold A. nia.
    - assert ((q + 1) * S < (k + 1) * T * S); [|nia].
      replace ((k + 1) * T * S) with ((k + 1) * A * 4503599627370496) by lia.
      assert (16 * S ≤ A * 4503599627370496) by nia.
      assert (10 * (Z.pos mz * 4953959590107546 + S)
              < 10 * ((k + 1) * A * 4503599627370496)); [|lia].
      rewrite Hmz in *. fold A in Hzhi, Hzlo |- *. nia. }
  destruct Hcases as [[Hm ->]|[Hm ->]].
  - replace (d - 53 + -52 + (D - 53)) with (- t) by (unfold t; lia).
    rewrite Z.shiftl_div_pow2, Z.opp_involutive by lia. fold T. apply div_between; [lia|].
    clearbody T k q. lia.
  - replace (d - 53 + -52 + (D - 53) + 1) with (- (t - 1)) by (unfold t; lia).
    rewrite Z.shiftl_div_pow2, Z.opp_involutive by lia.
    assert (T = 2 * 2 ^ (t - 1)) as HT2.
    { unfold T. rewrite <- Z.pow_succ_r by lia. f_equal. lia. }
    apply div_between; [apply pow2_pos; lia |].
    clearbody T k q. lia.
Qed.

Lemma batch_size_closed_form (needed : Z) :
  0 < needed < 2 ^ 48 → batch_size needed = inr (11 * needed / 10 + 10).
Proof.
  intros Hn. pose proof (int_mul_1_1 needed Hn) as H. unfold batch_size.
  destruct (int_mul needed (NFloat float_1_1)) as [e|p]; [done|].
  cbn [bind_exn] in *. rewrite H. do 2 f_equal.
  replace (11 * needed) with (needed * 10 + needed) by lia.
  rewrite Z.div_add_l by lia. done.
Qed.

(** ** An anomaly configuration that does not parse *)

(** A trace without the parse warnings. *)
Definition quiet (t : list event) : list event := filter (λ e, e ≠ WarnAnomalyJson) t.

(** The calls to [model.sample] in a trace. *)
Definition is_call (e : event) : Prop :=
  match e with CallSample _ => True | _ => False end.

#[global] Instance is_call_dec e : Decision (is_call e).
Proof. destruct e; simpl; apply _. Defined.

(** The number of parse warnings, of calls to the model and of failed calls
    in a trace. *)
Definition warnings (t : list event) : nat := length (filter (λ e, e = WarnAnomalyJson) t).
Definition calls (t : list event) : nat := length (filter is_call t).
Definition failed_calls (t : list event) : nat := length (filter (λ e, e = ErrorSampling) t).

(** The events of the leakage stage. *)
Definition leak_event (e : event) : Prop :=
  match e with WarnLeaked _ | InfoNoLeak => True | _ => False end.

Lemma leakage_stage_leak_events original_df samples :
  Forall leak_event (fst (leakage_stage original_df samples)).
Proof.
  unfold leakage_stage. destruct original_df as [o|]; [|constructor].
  destruct (is_empty o); [constructor|].
  destruct (0 <? length (common_cols o samples))%nat; [|constructor].
  apply Forall_bind; [constructor|]. intros merged _.
  destruct (0 <? length (leaked_indices merged))%nat;
    apply Forall_bind; simpl; repeat constructor.
Qed.

Lemma counts_app t1 t2 :
  warnings (t1 ++ t2) = (warnings t1 + warnings t2)%nat
  ∧ calls (t1 ++ t2) = (calls t1 + calls t2)%nat
  ∧ failed_calls (t1 ++ t2) = (failed_calls t1 + failed_calls t2)%nat.
Proof. unfold warnings, calls, failed_calls. by rewrite !filter_app, !length_app. Qed.

Lemma counts_none (P : event → Prop) t :
  Forall P t →
  (∀ e, P e → e ≠ WarnAnomalyJson ∧ ¬ is_call e ∧ e ≠ ErrorSampling) →
  warnings t = 0%nat ∧ calls t = 0%nat ∧ failed_calls t = 0%nat.
Proof.
  intros Ht HP. unfold warnings, calls, failed_calls.
  rewrite !filter_none; [done | | |];
    (eapply Forall_impl; [exact Ht|]; intros e He; apply HP in He; tauto).
Qed.

Lemma counts_leakage_stage original_df samples :
  warnings (fst (leakage_stage original_df samples)) = 0%nat
  ∧ calls (fst (leakage_stage original_df samples)) = 0%nat
  ∧ failed_calls (fst (leakage_stage original_df samples)) = 0%nat.
Proof.
  eapply counts_none; [apply leakage_stage_leak_events|].
  intros e He. destruct e; simpl in *; try tauto;
    (split; [discriminate | split; [tauto | discriminate]]).
Qed.

Lemma counts_finish w count g :
  warnings (fst (finish w count g)) = 0%nat
  ∧ calls (fst (finish w count g)) = 0%nat
  ∧ failed_calls (fst (finish w count g)) = 0%nat.
Proof.
  apply (counts_none (λ e, e ∈ fst (finish w count g))); [by apply Forall_forall|].
  intros e He. apply finish_events in He. destruct e; naive_solver.
Qed.

Lemma counts_preamble original_df :
  warnings (preamble original_df) = 0%nat
  ∧ calls (preamble original_df) = 0%nat
  ∧ failed_calls (preamble original_df) = 0%nat.
Proof. unfold preamble. by destruct original_df. Qed.

Section Unparsable.
Variable w : world.
Variable count : Z.
Variable original_df : option DataFrame.
Variable s : string.
Hypothesis s_not_empty : s ≠ ""%string.
Hypothesis s_unparsable : json_loads w s = None.

Lemma anomaly_stage_unparsable k samples :
  anomaly_stage w (Some s) k samples = ([WarnAnomalyJson], inr samples).
Proof.
  unfold anomaly_stage, load_anomalies.
  rewrite decide_False by done. by rewrite s_unparsable.
Qed.

Lemma stages_unparsable k samples :
  stages w original_df (Some s) k samples
  = (WarnAnomalyJson :: fst (leakage_stage original_df samples),
     snd (leakage_stage original_df samples)).
Proof. unfold stages. by rewrite anomaly_stage_unparsable, bind_inr. Qed.

Lemma stages_no_config k samples :
  stages w original_df None k samples = leakage_stage original_df samples.
Proof.
  unfold stages. change (anomaly_stage w None k samples) with (@ret DataFrame samples).
  unfold ret. rewrite bind_inr. by destruct (leakage_stage original_df samples).
Qed.

Lemma quiet_leakage_stage samples :
  quiet (fst (leakage_stage original_df samples)) = fst (leakage_stage original_df samples).
Proof.
  apply (filter_all (λ e, e ≠ WarnAnomalyJson)).
  eapply Forall_impl; [apply leakage_stage_leak_events|].
  intros e He. destruct e; simpl in *; try tauto; discriminate.
Qed.

Lemma loop_unparsable fuel attempts g :
  snd (loop w count original_df (Some s) fuel attempts g)
    = snd (loop w count original_df None fuel attempts g)
  ∧ quiet (fst (loop w count original_df (Some s) fuel attempts g))
    = fst (loop w count original_df None fuel attempts g).
Proof.
  revert attempts g. induction fuel as [|fuel IH]; intros attempts g; [done|].
  destruct (decide (Z.of_nat (len g) < count ∧ (attempts < max_attempts)%nat)) as [[H1 H2]|Hstop];
    [|by rewrite !loop_stop].
  rewrite !loop_step by done.
  destruct (batch_size _) as [e|n]; [done|].
  destruct (model_sample w (S attempts) n) as [samples|]; [|done].
  rewrite stages_unparsable, stages_no_config. cbn [fst snd].
  pose proof (quiet_leakage_stage samples) as Hq. unfold quiet in Hq.
  destruct (snd (leakage_stage original_df samples)) as [e|smp]; cbn [fst snd].
  - split; [done|]. unfold quiet. rewrite !filter_cons_True by done.
    rewrite filter_cons_False by (intros H; by apply H).
    by rewrite Hq.
  - destruct (IH (S attempts) (accumulate g smp)) as [IH1 IH2].
    split; [done|]. unfold quiet in *. rewrite !filter_cons_True by done.
    rewrite <- app_comm_cons, filter_cons_False by (intros H; by apply H).
    rewrite filter_app, IH2. by rewrite Hq.
Qed.

(** One warning for every batch the model returned. *)
Lemma loop_warnings fuel attempts g :
  (warnings (fst (loop w count original_df (Some s) fuel attempts g))
   + failed_calls (fst (loop w count original_df (Some s) fuel attempts g))
   = calls (fst (loop w count original_df (Some s) fuel attempts g)))%nat.
Proof.
  revert attempts g. induction fuel as [|fuel IH]; intros attempts g; [done|].
  destruct (decide (Z.of_nat (len g) < count ∧ (attempts < max_attempts)%nat)) as [[H1 H2]|Hstop];
    [|by rewrite !loop_stop].
  rewrite !loop_step by done.
  destruct (batch_size _) as [e|n]; [done|].
  destruct (model_sample w (S attempts) n) as [samples|]; [|done].
  rewrite stages_unparsable. cbn [fst snd].
  destruct (counts_leakage_stage original_df samples) as (Hw & Hc & Hf).
  set (L := fst (leakage_stage original_df samples)) in *.
  destruct (snd (leakage_stage original_df samples)) as [e|smp]; cbn [fst snd].
  - change (InfoPass (S attempts) n :: CallSample n :: WarnAnomalyJson :: L)
      with ([InfoPass (S attempts) n; CallSample n; WarnAnomalyJson] ++ L).
    destruct (counts_app [InfoPass (S attempts) n; CallSample n; WarnAnomalyJson] L)
      as (-> & -> & ->).
    rewrite Hw, Hc, Hf. done.
  - specialize (IH (S attempts) (accumulate g smp)).
    set (R := fst (loop w count original_df (Some s) fuel (S attempts) (accumulate g smp))) in *.
    change (InfoPass (S attempts) n :: CallSample n :: (WarnAnomalyJson :: L) ++ R)
      with ([InfoPass (S attempts) n; CallSample n; WarnAnomalyJson] ++ L ++ R).
    destruct (counts_app [InfoPass (S attempts) n; CallSample n; WarnAnomalyJson] (L ++ R))
      as (-> & -> & ->).
    destruct (counts_app L R) as (-> & -> & ->).
    rewrite Hw, Hc, Hf.
    change (warnings [InfoPass (S attempts) n; CallSample n; WarnAnomalyJson]) with 1%nat.
    change (calls [InfoPass (S attempts) n; CallSample n; WarnAnomalyJson]) with 1%nat.
    change (failed_calls [InfoPass (S attempts) n; CallSample n; WarnAnomalyJson]) with 0%nat.
    lia.
Qed.

(** Without an original frame the loop does not raise, for a target below
    [2 ^ 48]. *)
Lemma loop_unparsable_returns fuel attempts g :
  original_df = None → count < 2 ^ 48 →
  ∃ n g', snd (loop w count original_df (Some s) fuel attempts g) = inr (n, g').
Proof.
  intros Hnone Hcount. revert attempts g.
  induction fuel as [|fuel IH]; intros attempts g; [by eexists _, _|].
  destruct (decide (Z.of_nat (len g) < count ∧ (attempts < max_attempts)%nat)) as [[H1 H2]|Hstop];
    [|rewrite loop_stop by done; by eexists _, _].
  rewrite loop_step by done.
  rewrite batch_size_closed_form by lia.
  destruct (model_sample w (S attempts) _) as [samples|]; [|by eexists _, _].
  rewrite stages_unparsable, Hnone. cbn [leakage_stage ret fst snd].
  rewrite <- Hnone. apply IH.
Qed.

(** C10 (unparsable anomaly configuration, as the code has it): when
    [--anomalies] is a non-empty string that [json.loads] rejects, every pass
    whose batch the model returned logs the parse warning and hands the
    batch on unchanged, so the trace holds one warning for each such batch,
    none when no batch is sampled and at least one when the first call of a
    run for a positive target returns a batch.  The run is not aborted by
    it: it ends as the run without [--anomalies] ends, logs the same records
    and writes the same file, with only the parse warnings added; and
    without an original frame, for a target below [2 ^ 48] and a file that
    can be written, it ends normally with a file written. *)
Theorem unparsable_anomaly_json_disables_injection :
  let run := generate w count original_df (Some s) in
  (∀ k samples, anomaly_stage w (Some s) k samples = ([WarnAnomalyJson], inr samples))
  ∧ snd run = snd (generate w count original_df None)
  ∧ quiet (fst run) = fst (generate w count original_df None)
  ∧ (∀ df, WriteCsv df ∈ fst run ↔ WriteCsv df ∈ fst (generate w count original_df None))
  ∧ (warnings (fst run) + failed_calls (fst run) = calls (fst run))%nat
  ∧ (∀ samples, model_loads w = true → 0 < count < 2 ^ 48 →
       model_sample w 1 (11 * count / 10 + 10) = Some samples →
       WarnAnomalyJson ∈ fst run)
  ∧ (original_df = None → model_loads w = true → count < 2 ^ 48 →
       (∀ df, to_csv_ok w df = true) →
       snd run = inr tt ∧ ∃ df, WriteCsv df ∈ fst run).
Proof.
  intros run.
  assert (snd run = snd (generate w count original_df None)
          ∧ quiet (fst run) = fst (generate w count original_df None)) as [Hsnd Hfst].
  { unfold run. destruct (model_loads w) eqn:Hload; [|by rewrite !generate_no_model].
    rewrite !generate_eq by done. cbn [fst snd].
    destruct (loop_unparsable max_attempts 0 empty_frame) as [H1 H2].
    rewrite H1. split; [done|].
    unfold quiet in *. rewrite !filter_app, H2. f_equal.
    - apply (filter_all (λ e, e ≠ WarnAnomalyJson)), Forall_forall.
      intros e He ->. by apply preamble_events in He.
    - f_equal. destruct (snd (loop w count original_df None max_attempts 0 empty_frame))
        as [e|[n g]]; [done|].
      apply (filter_all (λ e, e ≠ WarnAnomalyJson)), Forall_forall.
      intros e He ->. apply finish_events in He. naive_solver. }
  split; [apply anomaly_stage_unparsable|]. split; [done|]. split; [done|].
  split; [|split; [|split]].
  - intros df. rewrite <- Hfst. unfold quiet. rewrite list_elem_of_filter.
    split; [intros H; split; [done | exact H] | intros [_ H]; exact H].
  - unfold run. destruct (model_loads w) eqn:Hload; [|by rewrite generate_no_model].
    rewrite generate_eq by done. cbn [fst].
    pose proof (loop_warnings max_attempts 0 empty_frame) as Hloop.
    set (t := fst (loop w count original_df (Some s) max_attempts 0 empty_frame)) in *.
    set (f := match snd (loop w count original_df (Some s) max_attempts 0 empty_frame) with
              | inl _ => []
              | inr r => fst (finish w count (snd r))
              end).
    assert (warnings f = 0%nat ∧ calls f = 0%nat ∧ failed_calls f = 0%nat) as (Hw & Hc & Hf).
    { unfold f.
      destruct (snd (loop w count original_df (Some s) max_attempts 0 empty_frame)) as [e|r];
        [repeat split | apply counts_finish]. }
    destruct (counts_preamble original_df) as (Hw' & Hc' & Hf').
    destruct (counts_app (preamble original_df) (t ++ f)) as (-> & -> & ->).
    destruct (counts_app t f) as (-> & -> & ->).
    lia.
  - intros samples Hload Hcount Hsample. unfold run.
    rewrite generate_eq by done. cbn [fst].
    apply elem_of_app. right. apply elem_of_app. left.
    change max_attempts with (S 9).
    rewrite loop_step;
      [| change (Z.of_nat (len empty_frame)) with 0; lia | unfold max_attempts; lia].
    change (Z.of_nat (len empty_frame)) with 0. rewrite Z.sub_0_r.
    rewrite batch_size_closed_form, Hsample, stages_unparsable by done. cbn [fst snd].
    destruct (snd (leakage_stage original_df samples)); cbn [fst];
      do 2 right; left.
  - intros Hnone Hload Hcount Hcsv. unfold run.
    rewrite generate_eq by done. cbn [fst snd].
    destruct (loop_unparsable_returns max_attempts 0 empty_frame Hnone Hcount)
      as (n & g & Hret).
    rewrite Hret. cbn [snd]. rewrite finish_eq, Hcsv. cbn [fst snd]. split; [done|].
    exists (trimmed count g). rewrite !elem_of_app. right; right.
    destruct (Z.of_nat (len (trimmed count g)) <? count); cbn [app];
      rewrite !elem_of_cons; tauto.
Qed.
End Unparsable.

(** ** The size of the request *)

(** The size the specification gives: [ceil(needed * 1.1) + 10]. *)
Definition ceiling_batch_size (needed : Z) : Z := (11 * needed + 9) / 10 + 10.

(** C3, at the first pass of a run for one row: eleven rows are requested,
    where the ceiling gives twelve. *)
Lemma requested_rows_not_ceiling :
  fst (pass eleven_rows 1 None None 1 empty_frame) = [InfoPass 1 11; CallSample 11]
  ∧ batch_size (1 - Z.of_nat (len empty_frame)) = inr 11
  ∧ ceiling_batch_size (1 - Z.of_nat (len empty_frame)) = 12.
Proof. vm_compute. done. Qed.

(** C3 (as the code has it): in an iteration with [needed = count -
    len(generated_data)] positive (and below [2 ^ 48]), the loop logs the pass
    and calls [model.sample] once, asking for [int(needed * 1.1) + 10] rows,
    which is the floor of [11 * needed / 10] plus ten. *)
Theorem requested_rows_truncated w count original_df anomaly_json fuel attempts g :
  let needed := count - Z.of_nat (len g) in
  let n := 11 * needed / 10 + 10 in
  0 < needed < 2 ^ 48 →
  (attempts < max_attempts)%nat →
  batch_size needed = inr n
  ∧ (∃ rest r, pass w count original_df anomaly_json (S attempts) g
                 = (InfoPass (S attempts) n :: CallSample n :: rest, r)
               ∧ ∀ m, CallSample m ∉ rest)
  ∧ (∃ rest r, loop w count original_df anomaly_json (S fuel) attempts g
                 = (InfoPass (S attempts) n :: CallSample n :: rest, r)).
Proof.
  intros needed n Hneeded Hatt.
  pose proof (batch_size_closed_form needed Hneeded) as Hbs. fold n in Hbs.
  split; [done|]. split.
  - rewrite pass_eq. fold needed. rewrite Hbs.
    destruct (model_sample w (S attempts) n) as [samples|].
    + eexists _, _. split; [done|]. intros m Hin.
      pose proof (stages_events w original_df anomaly_json (S attempts) samples) as Hst.
      eapply Forall_forall in Hst; [|exact Hin]. done.
    + eexists _, _. split; [done|]. intros m. rewrite elem_of_cons, elem_of_nil. naive_solver.
  - rewrite loop_step by (unfold needed in *; lia). fold needed. rewrite Hbs.
    destruct (model_sample w (S attempts) n) as [samples|]; [|by eexists _, _].
    destruct (snd (stages w original_df anomaly_json (S attempts) samples)); by eexists _, _.
Qed.

(** ** The number of rows a rule selects *)

(** The literals [0.75] and [2.0]. *)
Definition float_0_75 : spec_float := S754_finite false 6755399441055744 (-53).
Definition float_2_0 : spec_float := S754_finite false 4503599627370496 (-51).

(** A generator that always yields [0]: every choice takes the first label
    that remains, so the sample is the first [count] labels. *)
Definition first_labels : nat → nat → nat → list nat := λ _ _ count, replicate count 0%nat.

(** The rule [{"column": "amount", "type": "fixed", "value": v, "ratio": ratio}]. *)
Definition fixed_rule (v : Z) (ratio : spec_float) : anomaly :=
  mkAnomaly (Some "amount"%string) (Some "fixed"%string) (Some (VInt v)) (Some (NFloat ratio)).

(** [z] is an integer nearest to [num / den], whichever way ties go. *)
Definition nearest (num den z : Z) : Prop := 2 * Z.abs (num - z * den) ≤ den.

(** C4, on five rows with the ratio [0.75]: the rule writes at three rows,
    [int(3.75)], and three rows hold its value afterwards, where the nearest
    integer to [5 * 3 / 4] is four. *)
Lemma anomaly_count_not_rounded :
  anomaly_count 5 (Some (NFloat float_0_75)) = inr 3
  ∧ apply_anomaly first_labels 0 (fixed_rule 0 float_0_75) (amounts [1; 2; 3; 4; 5])
    = inr (amounts [0; 0; 0; 4; 5])
  ∧ length (filter (λ r, cell ["amount"%string] r "amount" = VInt 0)
                   (rows (amounts [0; 0; 0; 4; 5]))) = 3%nat
  ∧ nearest (5 * 3) 4 4
  ∧ ¬ nearest (5 * 3) 4 3.
Proof. vm_compute. repeat split; done. Qed.

(** * Instances *)


(** The accumulator on the batch [1], [True], [2]: [True] repeats [1], and
    two rows are kept. *)
Example true_repeats_one :
  accumulate empty_frame (mkFrame ["amount"%string] [[VInt 1]; [bool_cell true]; [VInt 2]])
  = amounts [1; 2].
Proof. reflexivity. Qed.

(** A ['fixed'] rule with the ratio [0.75] on five rows. *)
Lemma anomaly_rule_writes_at_sampled_rows_witness :
  let df := amounts [1; 2; 3; 4; 5] in
  wf (columns df) df
  ∧ "amount"%string ∈ columns df
  ∧ anomaly_count (len df) (Some (NFloat float_0_75)) = inr 3
  ∧ 0 ≤ 3 ≤ Z.of_nat (len df)
  ∧ exact (written "fixed" (Some (VInt 0)))
  ∧ ∃ idx df', sample_index first_labels 0 df 3 = inr idx
      ∧ apply_anomaly first_labels 0 (fixed_rule 0 float_0_75) df = inr df'
      ∧ 3 ≤ Z.of_nat (length (filter (λ r, cell (columns df) r "amount" = VInt 0) (rows df'))).
Proof.
  intros df.
  assert (wf (columns df) df) as Hwf by (split; [done | repeat constructor]).
  assert ("amount"%string ∈ columns df) as Hcol by left.
  assert (anomaly_count (len df) (Some (NFloat float_0_75)) = inr 3) as Hcount by reflexivity.
  assert (0 ≤ 3 ≤ Z.of_nat (len df)) as Hrange by (vm_compute; split; discriminate).
  assert (exact (written "fixed" (Some (VInt 0)))) as Hexact by (vm_compute; discriminate).
  repeat (split; [assumption|]).
  destruct (anomaly_rule_writes_at_sampled_rows first_labels 0 df "amount" "fixed"
              (Some (VInt 0)) (Some (NFloat float_0_75)) 3 Hwf Hcol (or_introl eq_refl)
              Hcount Hrange Hexact)
    as (idx & df' & Hidx & Heq & _ & _ & _ & _ & _ & _ & _ & _ & _ & Hge).
  exists idx, df'. split; [exact Hidx|]. split; [exact Heq | exact Hge].
Defined.

(** A ['fixed'] rule without ['value'] on those rows. *)
Lemma fixed_rule_without_value_nullifies_witness :
  let df := amounts [1; 2; 3; 4; 5] in
  wf (columns df) df
  ∧ "amount"%string ∈ columns df
  ∧ anomaly_count (len df) (Some (NFloat float_0_75)) = inr 3
  ∧ 0 ≤ 3 ≤ Z.of_nat (len df)
  ∧ apply_anomaly first_labels 0
      (mkAnomaly (Some "amount"%string) (Some "fixed"%string) None (Some (NFloat float_0_75))) df
    = apply_anomaly first_labels 0
        (mkAnomaly (Some "amount"%string) (Some "null"%string) None (Some (NFloat float_0_75))) df.
Proof.
  intros df.
  assert (wf (columns df) df) as Hwf by (split; [done | repeat constructor]).
  assert ("amount"%string ∈ columns df) as Hcol by left.
  assert (anomaly_count (len df) (Some (NFloat float_0_75)) = inr 3) as Hcount by reflexivity.
  assert (0 ≤ 3 ≤ Z.of_nat (len df)) as Hrange by (vm_compute; split; discriminate).
  repeat (split; [assumption|]).
  exact (proj1 (fixed_rule_without_value_nullifies first_labels 0 "amount"
                  (Some (NFloat float_0_75)) 3 df Hwf Hcol Hcount Hrange) 0%nat df).
Defined.

(** The first pass of a run for twenty rows. *)
Lemma requested_rows_truncated_witness :
  0 < 20 - Z.of_nat (len empty_frame) < 2 ^ 48
  ∧ (0 < max_attempts)%nat
  ∧ batch_size (20 - Z.of_nat (len empty_frame)) = inr 32.
Proof.
  assert (0 < 20 - Z.of_nat (len empty_frame) < 2 ^ 48) as Hn by (vm_compute; split; reflexivity).
  assert (0 < max_attempts)%nat as Hatt by (unfold max_attempts; lia).
  split; [exact Hn|]. split; [exact Hatt|].
  exact (proj1 (requested_rows_truncated eleven_rows 20 None None 9 0 empty_frame Hn Hatt)).
Defined.

(** [s] between double quotes. *)
Definition quoted (s : string) : string :=
  let q := Ascii.ascii_of_nat 34 in String q (s +:+ String q EmptyString).

(** The configuration with the single rule of column [amount], type
    [fixed], value [0] and ratio [2.0], as JSON text. *)
Definition ratio_two_json : string :=
  "[{" +:+ quoted "column" +:+ ": " +:+ quoted "amount" +:+ ", "
       +:+ quoted "type" +:+ ": " +:+ quoted "fixed" +:+ ", "
       +:+ quoted "value" +:+ ": 0, " +:+ quoted "ratio" +:+ ": 2.0}]".

(** A model that returns fifteen rows, with a [json.loads] that decodes that
    text. *)
Definition ratio_two : world :=
  mkWorld true (λ _ _, Some (amounts [1; 2; 3; 4; 5; 6; 7; 8; 9; 10; 11; 12; 13; 14; 15]))
          (λ _, first_labels)
          (λ s, if decide (s = ratio_two_json) then Some [fixed_rule 0 float_2_0] else None)
          (λ _, true).

(** A model that returns the rows [1], [2] and [100]. *)
Definition late_leak : world :=
  mkWorld true (λ _ _, Some (amounts [1; 2; 100])) (λ _, first_labels) (λ _, None) (λ _, true).

(** C5, at runs the claim does not provide for: the target of five rows is
    not reached and an exception escapes the loop.  In the first run a rule
    with the ratio [2.0] asks [df.sample] for thirty of the fifteen rows of
    the batch, which raises [ValueError]; in the second the original frame
    repeats the row [100], the last row of the batch equals it and [drop]
    raises [KeyError].  Both runs end with the exception: no file is
    written and no shortfall is logged. *)
Lemma uncaught_exception_writes_nothing :
  generate ratio_two 5 None (Some ratio_two_json)
    = ([InfoPass 1 15; CallSample 15], inl ValueError)
  ∧ 0 < 5
  ∧ model_loads ratio_two = true
  ∧ anomaly_count 15 (Some (NFloat float_2_0)) = inr 30
  ∧ (∀ df, WriteCsv df ∉ fst (generate ratio_two 5 None (Some ratio_two_json)))
  ∧ (WarnShortfall 5 max_attempts ∉ fst (generate ratio_two 5 None (Some ratio_two_json)))
  ∧ generate late_leak 5 (Some (amounts [100; 100])) None
    = ([InfoLoadOriginal; InfoPass 1 15; CallSample 15; WarnLeaked 2], inl KeyError)
  ∧ (∀ df, WriteCsv df ∉ fst (generate late_leak 5 (Some (amounts [100; 100])) None))
  ∧ (WarnShortfall 5 max_attempts ∉ fst (generate late_leak 5 (Some (amounts [100; 100])) None)).
Proof.
  assert (generate ratio_two 5 None (Some ratio_two_json)
          = ([InfoPass 1 15; CallSample 15], inl ValueError)) as Hrun by (vm_compute; reflexivity).
  assert (generate late_leak 5 (Some (amounts [100; 100])) None
          = ([InfoLoadOriginal; InfoPass 1 15; CallSample 15; WarnLeaked 2], inl KeyError))
    as Hrun' by (vm_compute; reflexivity).
  rewrite Hrun, Hrun'. cbn [fst].
  split; [done|]. split; [lia|]. split; [done|]. split; [reflexivity|].
  split; [intros df; rewrite !elem_of_cons, elem_of_nil; naive_solver|].
  split; [rewrite !elem_of_cons, elem_of_nil; naive_solver|].
  split; [done|].
  split; [intros df; rewrite !elem_of_cons, elem_of_nil; naive_solver|].
  rewrite !elem_of_cons, elem_of_nil; naive_solver.
Qed.

(** A run for five rows whose first batch holds eleven distinct rows. *)
Lemma exact_count_or_best_effort_witness :
  0 < 5
  ∧ model_loads eleven_rows = true
  ∧ generate eleven_rows 5 None None
    = ([InfoPass 1 15; CallSample 15; InfoFinal 5; WriteCsv (amounts [100; 1; 200; 2; 3]);
        InfoComplete], inr tt).
Proof.
  assert (0 < 5) as HT by lia.
  assert (model_loads eleven_rows = true) as Hload by reflexivity.
  split; [exact HT|]. split; [exact Hload|].
  destruct (exact_count_or_best_effort eleven_rows 5 None None HT Hload)
    as (t & r & Hloop & Hcases).
  assert (loop eleven_rows 5 None None max_attempts 0 empty_frame
          = ([InfoPass 1 15; CallSample 15],
             inr (1%nat, amounts [100; 1; 200; 2; 3; 4; 5; 6; 7; 8; 9]))) as Hl
    by (vm_compute; reflexivity).
  rewrite Hl in Hloop. injection Hloop as <- <-.
  destruct Hcases as (_ & Henough & _).
  destruct Henough as (_ & Hrun & _); [vm_compute; discriminate|].
  exact (Hrun eq_refl).
Defined.

(** The scenario of a source that returns the same hundred rows at every
    call, for a target of fifty: one row is collected, all ten passes are
    made, and the run ends with the shortfall warning. *)
Definition constant_source : world :=
  mkWorld true (λ _ _, Some (amounts (replicate 100 7)))
          (λ _ _ _ count, seq 0 count) (λ _, None) (λ _, true).

Example constant_source_scenario :
  ∃ t, loop constant_source 50 None None max_attempts 0 empty_frame
         = (t, inr (10%nat, amounts [7]))
       ∧ length (filter is_call t) = 10%nat
       ∧ generate constant_source 50 None None
         = (t ++ [InfoFinal 1; WarnShortfall 50 10; WriteCsv (amounts [7]); InfoComplete],
            inr tt)
       ∧ terminal_state (fst (generate constant_source 50 None None)) = PARTIAL.
Proof. eexists. vm_compute. repeat split; reflexivity. Qed.

(** A run for no rows. *)
Lemma empty_target_short_circuit_witness :
  0 ≤ 0
  ∧ generate eleven_rows 0 None None
    = ([InfoFinal 0; WriteCsv empty_frame; InfoComplete], inr tt).
Proof.
  assert (0 ≤ 0) as H0 by lia.
  split; [exact H0|].
  destruct (empty_target_short_circuit eleven_rows 0 None None H0) as (_ & _ & Hrun).
  exact (proj1 (Hrun eq_refl eq_refl)).
Defined.


(** C10, at runs the claim does not provide for.  The empty string is not
    JSON ([json.loads] rejects it), yet [load_anomalies] takes it for no
    configuration and logs nothing; and a run for no rows samples no batch,
    so it never reads the configuration and logs no warning either. *)
Lemma unparsable_configuration_without_warning :
  json_loads eleven_rows ""%string = None
  ∧ generate eleven_rows 5 None (Some ""%string)
    = ([InfoPass 1 15; CallSample 15; InfoFinal 5; WriteCsv (amounts [100; 1; 200; 2; 3]);
        InfoComplete], inr tt)
  ∧ (WarnAnomalyJson ∉ fst (generate eleven_rows 5 None (Some ""%string)))
  ∧ json_loads eleven_rows "{not json" = None
  ∧ generate eleven_rows 0 None (Some "{not json"%string)
    = ([InfoFinal 0; WriteCsv empty_frame; InfoComplete], inr tt)
  ∧ (WarnAnomalyJson ∉ fst (generate eleven_rows 0 None (Some "{not json"%string))).
Proof.
  assert (generate eleven_rows 5 None (Some ""%string)
          = ([InfoPass 1 15; CallSample 15; InfoFinal 5; WriteCsv (amounts [100; 1; 200; 2; 3]);
              InfoComplete], inr tt)) as H1 by (vm_compute; reflexivity).
  assert (generate eleven_rows 0 None (Some "{not json"%string)
          = ([InfoFinal 0; WriteCsv empty_frame; InfoComplete], inr tt)) as H2
    by (vm_compute; reflexivity).
  rewrite H1, H2. cbn [fst].
  split; [done|]. split; [done|]. split.
  { rewrite !elem_of_cons, elem_of_nil. naive_solver. }
  split; [done|]. split; [done|].
  rewrite !elem_of_cons, elem_of_nil. naive_solver.
Qed.

(** A run whose [--anomalies] is not JSON. *)
Lemma unparsable_anomaly_json_disables_injection_witness :
  "{not json"%string ≠ ""%string
  ∧ json_loads eleven_rows "{not json" = None
  ∧ snd (generate eleven_rows 5 None (Some "{not json"%string))
    = snd (generate eleven_rows 5 None None)
  ∧ quiet (fst (generate eleven_rows 5 None (Some "{not json"%string)))
    = fst (generate eleven_rows 5 None None)
  ∧ WarnAnomalyJson ∈ fst (generate eleven_rows 5 None (Some "{not json"%string)).
Proof.
  assert ("{not json"%string ≠ ""%string) as Hne by discriminate.
  assert (json_loads eleven_rows "{not json" = None) as Hjson by reflexivity.
  split; [exact Hne|]. split; [exact Hjson|].
  destruct (unparsable_anomaly_json_disables_injection eleven_rows 5 None "{not json"
              Hne Hjson) as (_ & Hsnd & Hfst & _ & _ & Hwarn & _).
  split; [exact Hsnd|]. split; [exact Hfst|].
  apply (Hwarn (amounts [100; 1; 200; 2; 3; 4; 5; 6; 7; 8; 9]));
    [reflexivity | vm_compute; split; reflexivity | reflexivity].
Defined.

(** * Further properties of [generate.py] *)

(** ** [apply_anomalies] keeps the shape of the batch *)

(** What one frame may differ from another by, after rules on the columns
    [touched]: same columns, same number of rows, rows of the same width,
    and the same cells outside [touched]. *)
Definition same_shape (touched : list string) (df df' : DataFrame) : Prop :=
  columns df' = columns df
  ∧ len df' = len df
  ∧ ∀ i r r', rows df !! i = Some r → rows df' !! i = Some r' →
      length r' = length r
      ∧ ∀ c, c ∉ touched → cell (columns df) r' c = cell (columns df) r c.

Lemma same_shape_refl touched df : same_shape touched df df.
Proof. repeat split; congruence. Qed.

Lemma same_shape_trans t1 t2 df1 df2 df3 :
  same_shape t1 df1 df2 → same_shape t2 df2 df3 → same_shape (t1 ++ t2) df1 df3.
Proof.
  intros (Hc1 & Hl1 & Hr1) (Hc2 & Hl2 & Hr2). split; [congruence|]. split; [congruence|].
  intros i r r'' Hr Hr''.
  destruct (rows df2 !! i) as [r'|] eqn:Hr'.
  - destruct (Hr1 i r r' Hr Hr') as [Hlen1 Hcell1].
    destruct (Hr2 i r' r'' Hr' Hr'') as [Hlen2 Hcell2].
    split; [congruence|]. intros c Hc. rewrite elem_of_app in Hc.
    rewrite <- Hcell1 by tauto. rewrite <- Hc1. apply Hcell2. tauto.
  - apply lookup_ge_None in Hr'. apply lookup_lt_Some in Hr. unfold len in *. lia.
Qed.

Lemma same_shape_loc_set idx col v df : same_shape [col] df (loc_set idx col v df).
Proof.
  split; [done|]. split; [apply loc_set_len|].
  intros i r r' Hr Hr'. rewrite loc_set_lookup, Hr in Hr'. simpl in Hr'.
  injection Hr' as <-. destruct (decide (i ∈ idx)); [|done].
  split; [apply set_cell_length|]. intros c Hc. apply cell_set_cell_ne.
  intros ->. apply Hc. left.
Qed.

Lemma same_shape_weaken t t' df df' :
  (∀ c, c ∈ t → c ∈ t') → same_shape t df df' → same_shape t' df df'.
Proof.
  intros Hsub (Hc & Hl & Hr). split; [done|]. split; [done|].
  intros i r r' H1 H2. destruct (Hr i r r' H1 H2) as [Hlen Hcell].
  split; [done|]. intros c Hc'. apply Hcell. intros Hin. by apply Hc', Hsub.
Qed.

(** The columns the rules name. *)
Definition rule_columns (anomalies : list anomaly) : list string :=
  omap rule_column anomalies.

Lemma apply_anomaly_shape pick k a df df' :
  apply_anomaly pick k a df = inr df' → same_shape (rule_columns [a]) df df'.
Proof.
  unfold apply_anomaly, rule_columns. simpl.
  destruct (rule_column a) as [col|]; [|intros [= <-]; apply same_shape_refl].
  destruct (decide (col ∈ columns df)) as [Hin|Hnin]; [|intros [= <-]; apply same_shape_refl].
  destruct (anomaly_count (len df) (rule_ratio a)) as [ex|count]; [done|]. simpl.
  destruct (sample_index pick k df count) as [ex|idx]; [done|]. simpl.
  destruct (decide (rule_type a = Some "fixed"%string)) as [Hfixed|_].
  { intros [= <-]. apply same_shape_loc_set. }
  destruct (decide (rule_type a = Some "null"%string)) as [Hnull|_].
  { intros [= <-]. apply same_shape_loc_set. }
  intros [= <-]. apply same_shape_refl.
Qed.

Lemma apply_rules_shape pick anomalies k df df' :
  apply_rules pick k anomalies df = inr df' → same_shape (rule_columns anomalies) df df'.
Proof.
  revert k df. induction anomalies as [|a rest IH]; intros k df; cbn [apply_rules].
  - intros [= <-]. apply same_shape_refl.
  - destruct (apply_anomaly pick k a df) as [ex|df1] eqn:H1; [done|]. cbn [bind_exn]. intros H2.
    apply apply_anomaly_shape in H1. apply IH in H2.
    eapply same_shape_weaken; [|by eapply same_shape_trans].
    intros c Hc. unfold rule_columns in *. apply list_elem_of_omap.
    apply elem_of_app in Hc as [Hc|Hc]; apply list_elem_of_omap in Hc as (b & Hb & Hc);
      exists b; (split; [|done]).
    + apply list_elem_of_singleton in Hb as ->. left.
    + by right.
Qed.

Lemma apply_anomalies_shape pick anomalies df df' :
  apply_anomalies pick df anomalies = inr df' →
  same_shape (rule_columns (default [] anomalies)) df df'.
Proof.
  destruct anomalies as [[|a rest]|]; simpl; try (intros [= <-]; apply same_shape_refl).
  apply (apply_rules_shape pick (a :: rest)).
Qed.

Lemma same_shape_wf touched cols df df' : same_shape touched df df' → wf cols df → wf cols df'.
Proof.
  intros (Hc & Hl & Hr) [Hcols Hrows]. split; [congruence|].
  apply Forall_lookup. intros i r' Hr'.
  destruct (rows df !! i) as [r|] eqn:Hri.
  - destruct (Hr i r r' Hri Hr') as [Hlen _]. rewrite Hlen.
    by eapply Forall_lookup_1 in Hrows.
  - apply lookup_ge_None in Hri. apply lookup_lt_Some in Hr'. unfold len in *. lia.
Qed.

(** X1 (shape): whatever the rules and the draws, a batch that
    [apply_anomalies] returns has the columns of the batch it was given, as
    many rows, rows of the same width, and the same cells in every column
    that no rule names. *)
Theorem apply_anomalies_keeps_shape pick anomalies df df' :
  apply_anomalies pick df anomalies = inr df' →
  columns df' = columns df
  ∧ len df' = len df
  ∧ (∀ cols, wf cols df → wf cols df')
  ∧ ∀ i r r' c, rows df !! i = Some r → rows df' !! i = Some r' →
      (∀ a, a ∈ default [] anomalies → rule_column a ≠ Some c) →
      cell (columns df) r' c = cell (columns df) r c.
Proof.
  intros Happly. pose proof (apply_anomalies_shape _ _ _ _ Happly) as Hshape.
  pose proof Hshape as (Hc & Hl & Hr).
  split; [done|]. split; [done|]. split.
  - intros cols. by apply same_shape_wf with (touched := rule_columns (default [] anomalies)).
  - intros i r r' c H1 H2 Hnot. destruct (Hr i r r' H1 H2) as [_ Hcell]. apply Hcell.
    unfold rule_columns. rewrite list_elem_of_omap. intros (a & Ha & Hcol).
    by apply (Hnot a).
Qed.

(** ** A count outside the batch *)

(** X2 (out-of-range count): [df.sample(n=count)] is called before the rule's
    type is looked at, so a rule on a column of the batch whose count is
    negative or above the number of rows raises [ValueError], whatever its
    type; nothing catches it, so [apply_anomalies] raises and the pass of
    the loop that runs it raises too. *)
Theorem out_of_range_count_raises pick k a col count df :
  rule_column a = Some col →
  col ∈ columns df →
  anomaly_count (len df) (rule_ratio a) = inr count →
  count < 0 ∨ Z.of_nat (len df) < count →
  apply_anomaly pick k a df = inl ValueError
  ∧ (∀ rest, apply_anomalies pick df (Some (a :: rest)) = inl ValueError)
  ∧ (∀ w s attempt rest,
       s ≠ ""%string → json_loads w s = Some (a :: rest) → frame_sample w attempt = pick →
       anomaly_stage w (Some s) attempt df = ([], inl ValueError)).
Proof.
  intros Hcol Hin Hcount Hrange.
  assert (∀ j, apply_anomaly pick j a df = inl ValueError) as Hany.
  { intros j. unfold apply_anomaly. rewrite Hcol. rewrite decide_True by done.
    rewrite Hcount. simpl. unfold sample_index.
    destruct (Z.ltb_spec count 0), (Z.ltb_spec (Z.of_nat (len df)) count); simpl; try done. lia. }
  split; [done|]. split.
  - intros rest. simpl. by rewrite Hany.
  - intros w s attempt rest Hs Hjson <-. unfold anomaly_stage, load_anomalies.
    rewrite decide_False by done. rewrite Hjson. unfold ret. rewrite bind_inr.
    unfold lift. simpl. by rewrite Hany.
Qed.

(** ** Small batches under the default ratio *)

Lemma loc_set_nil col v df : loc_set [] col v df = df.
Proof.
  unfold loc_set. destruct df as [cols rs]. simpl. f_equal.
  induction rs as [|r rs IH] using rev_ind; [done|].
  rewrite imap_app, IH. simpl. done.
Qed.

Lemma default_count_small (n : nat) : (n < 20)%nat → anomaly_count n None = inr 0.
Proof.
  intros Hn. do 20 (destruct n as [|n]; [reflexivity|]). lia.
Qed.

(** X3 (default ratio): a rule without ['ratio'] uses [0.05]; on a batch of
    fewer than twenty rows its count is [int(n * 0.05) = 0], the sample is
    empty and the batch comes back unchanged, whatever the rule's column,
    type and value.  Twenty rows are the first size at which one row is
    written. *)
Theorem default_ratio_spares_small_batches pick k col ty v df :
  (len df < 20)%nat →
  anomaly_count (len df) None = inr 0
  ∧ apply_anomaly pick k (mkAnomaly col ty v None) df = inr df
  ∧ anomaly_count 20 None = inr 1.
Proof.
  intros Hn.
  pose proof (default_count_small (len df) Hn) as Hcount.
  split; [done|]. split; [|reflexivity].
  unfold apply_anomaly. cbn [rule_column rule_ratio rule_type rule_value].
  destruct col as [c|]; [|done].
  destruct (decide (c ∈ columns df)) as [Hin|Hnin]; [|done].
  rewrite Hcount. cbn [bind_exn]. rewrite sample_index_ok by lia. cbn [bind_exn].
  change (Z.to_nat 0) with 0%nat. cbn [draw]. rewrite !loc_set_nil.
  by repeat destruct (decide _).
Qed.

(** ** When the leakage filter does not run *)

Lemma common_cols_disjoint o samples :
  (∀ c, c ∈ columns o → c ∉ columns samples) → common_cols o samples = [].
Proof.
  intros Hdisj. unfold common_cols. apply filter_none, Forall_forall. intros c Hc. by apply Hdisj.
Qed.

(** X4 (filter off): without an original frame, with one that has no rows or
    no columns, or with one that shares no column with the batch, the
    leakage stage hands the batch on as it is and logs nothing, also when
    the batch repeats original rows. *)
Theorem leakage_stage_off original_df samples :
  original_df = None
  ∨ (∃ o, original_df = Some o
          ∧ (rows o = [] ∨ columns o = [] ∨ ∀ c, c ∈ columns o → c ∉ columns samples)) →
  leakage_stage original_df samples = ([], inr samples).
Proof.
  intros [->|(o & -> & Hoff)]; [done|]. unfold leakage_stage.
  destruct (is_empty o) eqn:Hempty; [done|].
  destruct Hoff as [Hrows|[Hcols|Hdisj]].
  - unfold is_empty in Hempty. rewrite Hrows in Hempty. by destruct (columns o).
  - unfold is_empty in Hempty. by rewrite Hcols in Hempty.
  - by rewrite common_cols_disjoint.
Qed.

(** ** The budget of the loop *)

Lemma no_call_in_stages w original_df anomaly_json k samples :
  filter is_call (fst (stages w original_df anomaly_json k samples)) = [].
Proof.
  apply filter_none. eapply Forall_impl; [apply stages_events|].
  intros e Hs Hc. destruct e; simpl in *; tauto.
Qed.

Lemma loop_calls w count original_df anomaly_json fuel attempts g :
  (attempts ≤ max_attempts)%nat →
  (length (filter is_call (fst (loop w count original_df anomaly_json fuel attempts g)))
   ≤ max_attempts - attempts)%nat.
Proof.
  revert attempts g. induction fuel as [|fuel IH]; intros attempts g Hle; [simpl; lia|].
  destruct (decide (Z.of_nat (len g) < count ∧ (attempts < max_attempts)%nat)) as [[H1 H2]|Hstop];
    [|rewrite loop_stop by done; simpl; lia].
  rewrite loop_step by done.
  destruct (batch_size _) as [ex|n]; [simpl; lia|].
  destruct (model_sample w (S attempts) n) as [samples|]; [|simpl; lia].
  pose proof (no_call_in_stages w original_df anomaly_json (S attempts) samples) as Hst.
  destruct (snd (stages w original_df anomaly_json (S attempts) samples)) as [ex|s]; cbn [fst].
  - rewrite filter_cons_False by (intros []). rewrite filter_cons_True by exact I.
    rewrite Hst. simpl. lia.
  - rewrite filter_cons_False by (intros []). rewrite filter_cons_True by exact I.
    rewrite filter_app, Hst. simpl.
    specialize (IH (S attempts) (accumulate g s) ltac:(lia)). lia.
Qed.

(** X5 (budget): a run calls [model.sample] at most ten times, whatever the
    model returns, the target is and the filters do. *)
Theorem generate_samples_at_most_ten_times w count original_df anomaly_json :
  (length (filter is_call (fst (generate w count original_df anomaly_json))) ≤ 10)%nat.
Proof.
  destruct (model_loads w) eqn:Hload; [|rewrite generate_no_model by done; simpl; lia].
  rewrite generate_eq by done. cbn [fst]. rewrite !filter_app, !length_app.
  pose proof (loop_calls w count original_df anomaly_json max_attempts 0 empty_frame
                ltac:(lia)) as Hloop.
  assert (filter is_call (preamble original_df) = []) as ->.
  { unfold preamble. by destruct original_df. }
  assert (filter is_call
            match snd (loop w count original_df anomaly_json max_attempts 0 empty_frame) with
            | inl _ => []
            | inr r => fst (finish w count (snd r))
            end = []) as ->.
  { destruct (snd _) as [ex|r]; [done|]. apply filter_none, Forall_forall.
    intros e He Hcall. apply finish_events in He. destruct e; naive_solver. }
  unfold max_attempts in *. simpl in *. lia.
Qed.

(** ** The file that is written *)

Lemma loop_NoDup w count original_df anomaly_json fuel attempts g t n g' :
  NoDup (rows g) →
  loop w count original_df anomaly_json fuel attempts g = (t, inr (n, g')) →
  NoDup (rows g').
Proof.
  revert attempts g t. induction fuel as [|fuel IH]; intros attempts g t Hnd Hloop.
  - simpl in Hloop. by injection Hloop as <- <- <-.
  - destruct (decide (Z.of_nat (len g) < count ∧ (attempts < max_attempts)%nat)) as [[H1 H2]|Hstop];
      [|rewrite loop_stop in Hloop by done; by injection Hloop as <- <- <-].
    rewrite loop_step in Hloop by done.
    destruct (batch_size _) as [ex|m]; [done|].
    destruct (model_sample w (S attempts) m) as [samples|];
      [|by injection Hloop as <- <- <-].
    destruct (snd (stages w original_df anomaly_json (S attempts) samples)) as [ex|s]; [done|].
    destruct (loop w count original_df anomaly_json fuel (S attempts) (accumulate g s))
      as [tl rl] eqn:Hl.
    simpl in Hloop. injection Hloop as <- ->.
    eapply IH; [|exact Hl]. apply keep_first_NoDup.
Qed.

Lemma trimmed_rows count g :
  ∃ k, rows (trimmed count g) = take k (rows g).
Proof.
  unfold trimmed, head. destruct (count <? Z.of_nat (len g)).
  - simpl. destruct (0 <=? count); eauto.
  - exists (length (rows g)). by rewrite firstn_all.
Qed.

(** X6 (written file): the frame a run writes has no two equal rows and, for
    a target [count >= 0], at most [count] rows; for a negative target it is
    empty. *)
Theorem written_file_is_deduplicated_and_bounded w count original_df anomaly_json df :
  WriteCsv df ∈ fst (generate w count original_df anomaly_json) →
  NoDup (rows df) ∧ Z.of_nat (len df) ≤ Z.max 0 count.
Proof.
  intros Hin. destruct (model_loads w) eqn:Hload; cycle 1.
  { rewrite generate_no_model in Hin by done. simpl in Hin.
    rewrite elem_of_cons, elem_of_nil in Hin. by destruct Hin. }
  destruct (generate_events _ _ _ _ _ Hload Hin) as [Heq|[[Hev _]|(n & g & Hloop & Hfin)]];
    [discriminate Heq | destruct Hev |].
  apply finish_events in Hfin as [?|[[? _]|[[[= ->] _]|[[? _]|[? _]]]]]; try done.
  split.
  - destruct (trimmed_rows count g) as [k ->].
    eapply sublist_NoDup; [|apply sublist_take].
    eapply loop_NoDup; [|exact Hloop]. constructor.
  - destruct (decide (0 < count)) as [Hpos|Hneg].
    + unfold trimmed. destruct (Z.ltb_spec count (Z.of_nat (len g))) as [Hlt|Hge]; [|lia].
      unfold head, len. simpl. replace (0 <=? count) with true by (symmetry; apply Z.leb_le; lia).
      rewrite length_take. lia.
    + rewrite loop_stop in Hloop by lia. injection Hloop as <- <-.
      assert (rows (trimmed count empty_frame) = []) as Hnil.
      { destruct (trimmed_rows count empty_frame) as [k ->]. apply take_nil. }
      unfold len. rewrite Hnil. change (Z.of_nat (length (@nil row))) with 0. lia.
Qed.

(** ** The leakage filter on an original frame without repeated keys *)





(** ** No leakage, for an original frame without repeated keys *)

Lemma leaks_only_columns o s s' r : columns s = columns s' → leaks o s r ↔ leaks o s' r.
Proof. intros Hc. unfold leaks, common_cols. by rewrite Hc. Qed.

Lemma anomaly_stage_shape w anomaly_json k s s1 :
  snd (anomaly_stage w anomaly_json k s) = inr s1 → ∃ touched, same_shape touched s s1.
Proof.
  unfold anomaly_stage. rewrite bind_eq. cbn [snd].
  destruct (snd (load_anomalies w anomaly_json)) as [ex|[[|a rest]|]];
    cbn [snd ret lift]; [done| | |].
  - intros [= <-]. exists []. apply same_shape_refl.
  - intros Happly. eexists. by eapply apply_anomalies_shape.
  - intros [= <-]. exists []. apply same_shape_refl.
Qed.


Section NoLeak.
Variable w : world.
Variable count : Z.
Variable o : DataFrame.
Variable anomaly_json : option string.
Variable cols : list string.

(** The model has the fixed output schema [cols]. *)
Hypothesis cols_NoDup : NoDup cols.
Hypothesis model_schema : ∀ i n s, model_sample w i n = Some s → wf cols s.

(** The original frame has rows and columns, shares a column with the
    schema, and no two of its rows agree on all common columns. *)
Hypothesis original_not_empty : is_empty o = false.
Hypothesis original_shares : common_cols o (mkFrame cols []) ≠ [].
Hypothesis original_distinct :
  NoDup (select (columns o) (common_cols o (mkFrame cols [])) <$> rows o).

(** No row of the frame leaks. *)
Definition clean (g : DataFrame) : Prop :=
  ∀ r, r ∈ rows g → ¬ leaks o (mkFrame cols []) r.

Lemma stages_clean k s s2 :
  wf cols s →
  snd (stages w (Some o) anomaly_json k s) = inr s2 →
  wf cols s2 ∧ clean s2.
Proof.
  intros Hwf. unfold stages. rewrite bind_eq. cbn [snd].
  destruct (snd (anomaly_stage w anomaly_json k s)) as [ex|s1] eqn:H1; [done|].
  destruct (anomaly_stage_shape _ _ _ _ _ H1) as [touched Hshape].
  pose proof (same_shape_wf _ _ _ _ Hshape Hwf) as [Hc1 Hr1].
  assert (common_cols o s1 = common_cols o (mkFrame cols [])) as Hcc
    by (unfold common_cols; by rewrite Hc1).
  destruct (key_types_clash o s1) eqn:Hok.
  { rewrite leakage_stage_eq, Hok; [done | done | by rewrite Hcc]. }
  destruct (leakage_stage_distinct_original o s1) as [t Ht];
    [done | by rewrite Hcc | by rewrite Hcc | done |].
  rewrite Ht. cbn [snd]. intros [= <-]. split.
  - split; [done|]. simpl. apply Forall_forall. intros r [_ Hr]%list_elem_of_filter.
    by eapply Forall_forall in Hr1.
  - intros r [Hr _]%list_elem_of_filter Hleak. apply Hr.
    by apply (leaks_only_columns o s1 (mkFrame cols [])).
Qed.

Lemma accumulate_clean g s :
  g = empty_frame ∨ wf cols g → clean g → wf cols s → clean s →
  wf cols (accumulate g s) ∧ clean (accumulate g s).
Proof.
  intros Hg Hcg Hs Hcs.
  assert (accumulate g s = mkFrame cols (keep_first [] (rows g ++ rows s))) as ->.
  { destruct Hg as [->|Hg]; [by apply accumulate_empty | by apply accumulate_wf]. }
  split.
  - apply wf_keep_first, Forall_app. split; [|apply Hs].
    destruct Hg as [->|Hg]; [constructor | apply Hg].
  - intros r Hr. simpl in Hr. apply elem_of_keep_first in Hr as [Hr _].
    apply elem_of_app in Hr as [Hr|Hr]; [by apply Hcg | by apply Hcs].
Qed.


Lemma stages_returns k s :
  anomaly_json = None → wf cols s → key_types_clash o s = false →
  ∃ s2, snd (stages w (Some o) anomaly_json k s) = inr s2.
Proof.
  intros -> Hwf Hok. rewrite stages_no_config. destruct Hwf as [Hc _].
  assert (common_cols o s = common_cols o (mkFrame cols [])) as Hcc
    by (unfold common_cols; by rewrite Hc).
  destruct (leakage_stage_distinct_original o s) as [t Ht];
    [done | by rewrite Hcc | by rewrite Hcc | done |].
  rewrite Ht. by eexists.
Qed.

Lemma loop_returns fuel attempts g :
  anomaly_json = None → count < 2 ^ 48 →
  (∀ i n s, model_sample w i n = Some s → same_kinds o s) →
  g = empty_frame ∨ wf cols g → clean g →
  ∃ n g', snd (loop w count (Some o) anomaly_json fuel attempts g) = inr (n, g').
Proof.
  intros Hnone Hcount Hkeys. revert attempts g.
  induction fuel as [|fuel IH]; intros attempts g Hg Hcg; [by eexists _, _|].
  destruct (decide (Z.of_nat (len g) < count ∧ (attempts < max_attempts)%nat)) as [[H1 H2]|Hstop];
    [|rewrite loop_stop by done; by eexists _, _].
  rewrite loop_step by done.
  rewrite batch_size_closed_form by lia.
  destruct (model_sample w (S attempts) _) as [samples|] eqn:Hsample; [|by eexists _, _].
  pose proof (model_schema _ _ _ Hsample) as Hwf.
  destruct (stages_returns (S attempts) samples Hnone Hwf
              (same_kinds_no_clash _ _ (Hkeys _ _ _ Hsample))) as [s Hst].
  rewrite Hst. cbn [snd].
  destruct (stages_clean _ _ _ Hwf Hst) as [Hws Hcs].
  destruct (accumulate_clean g s Hg Hcg Hws Hcs) as [Hwa Hca].
  apply IH; [by right | done].
Qed.

(** X9 (no crash): when the model keeps its schema, the original frame has no
    two rows that agree on all common columns, every common column of every
    batch holds strings exactly when the original's does (so that [merge]
    accepts the key columns), no [--anomalies] is given and the target is
    below [2 ^ 48], no exception escapes the loop: the run ends normally, or
    with exit status 1 when the model does not load or the file cannot be
    written. *)
Theorem distinct_original_run_does_not_crash :
  anomaly_json = None → count < 2 ^ 48 →
  (∀ i n s, model_sample w i n = Some s → same_kinds o s) →
  snd (generate w count (Some o) anomaly_json) = inr tt
  ∨ snd (generate w count (Some o) anomaly_json) = inl (SystemExit 1).
Proof.
  intros Hnone Hcount Hkeys. destruct (model_loads w) eqn:Hload;
    [|right; by rewrite generate_no_model].
  rewrite generate_eq by done. cbn [snd].
  destruct (loop_returns max_attempts 0 empty_frame Hnone Hcount Hkeys (or_introl eq_refl))
    as (n & g & ->); [intros ? Hx; by apply elem_of_nil in Hx|].
  rewrite finish_eq. cbn [snd]. destruct (to_csv_ok w _); [by left | by right].
Qed.
End NoLeak.

(** ** An original frame without rows *)

Lemma leakage_stage_empty_original o s :
  is_empty o = true → leakage_stage (Some o) s = leakage_stage None s.
Proof. intros He. unfold leakage_stage. by rewrite He. Qed.

Lemma stages_empty_original w o anomaly_json k s :
  is_empty o = true →
  stages w (Some o) anomaly_json k s = stages w None anomaly_json k s.
Proof.
  intros He. unfold stages.
  destruct (anomaly_stage w anomaly_json k s) as [t [ex|s1]]; [done|].
  by rewrite !bind_inr, leakage_stage_empty_original.
Qed.

Lemma loop_empty_original w count o anomaly_json fuel attempts g :
  is_empty o = true →
  loop w count (Some o) anomaly_json fuel attempts g
  = loop w count None anomaly_json fuel attempts g.
Proof.
  intros He. revert attempts g. induction fuel as [|fuel IH]; intros attempts g; [done|].
  destruct (decide (Z.of_nat (len g) < count ∧ (attempts < max_attempts)%nat)) as [[H1 H2]|Hstop];
    [|by rewrite !loop_stop].
  rewrite !loop_step by done.
  destruct (batch_size _) as [ex|n]; [done|].
  destruct (model_sample w (S attempts) n) as [samples|]; [|done].
  rewrite stages_empty_original by done.
  destruct (snd (stages w None anomaly_json (S attempts) samples)) as [ex|s]; [done|].
  by rewrite IH.
Qed.

(** X10 (empty original): an original file with a header and no rows (or no
    columns) is read and then ignored: the run logs that it loaded it and
    otherwise does, logs and writes what the run without [--original] does. *)
Theorem empty_original_is_ignored w count o anomaly_json :
  is_empty o = true →
  model_loads w = true →
  generate w count (Some o) anomaly_json
  = (InfoLoadOriginal :: fst (generate w count None anomaly_json),
     snd (generate w count None anomaly_json)).
Proof.
  intros He Hload. rewrite !generate_eq by done. cbn [fst snd preamble app].
  by rewrite loop_empty_original.
Qed.

(** ** A run that needs one pass *)

(** X11 (one pass): for a target [0 < count < 2 ^ 48], without [--original]
    and [--anomalies], when the first batch the model returns (for the
    [floor(11 * count / 10) + 10] rows requested) holds at least [count]
    distinct rows, the run samples once and writes the first [count] distinct
    rows of that batch, in the order of their first occurrence. *)
Theorem one_pass_run w count cols samples :
  0 < count < 2 ^ 48 →
  NoDup cols →
  wf cols samples →
  model_loads w = true →
  model_sample w 1 (11 * count / 10 + 10) = Some samples →
  count ≤ Z.of_nat (length (keep_first [] (rows samples))) →
  let out := mkFrame cols (take (Z.to_nat count) (keep_first [] (rows samples))) in
  to_csv_ok w out = true →
  generate w count None None
  = ([InfoPass 1 (11 * count / 10 + 10); CallSample (11 * count / 10 + 10);
      InfoFinal (Z.to_nat count); WriteCsv out; InfoComplete], inr tt).
Proof.
  intros Hcount Hnd Hwf Hload Hsample Henough out Hcsv.
  pose proof (batch_size_closed_form count Hcount) as Hbs.
  assert (accumulate empty_frame samples = mkFrame cols (keep_first [] (rows samples))) as Hacc
    by (by apply accumulate_empty).
  assert (loop w count None None max_attempts 0 empty_frame
          = ([InfoPass 1 (11 * count / 10 + 10); CallSample (11 * count / 10 + 10)],
             inr (1%nat, mkFrame cols (keep_first [] (rows samples))))) as Hloop.
  { change max_attempts with (S 9).
    rewrite loop_step;
      [| change (Z.of_nat (len empty_frame)) with 0; lia | unfold max_attempts; lia].
    change (Z.of_nat (len empty_frame)) with 0. rewrite Z.sub_0_r, Hbs, Hsample.
    rewrite stages_no_config. cbn [leakage_stage ret fst snd]. rewrite Hacc.
    rewrite loop_stop by (unfold len; cbn [rows]; lia). done. }
  destruct (trimmed_enough count (mkFrame cols (keep_first [] (rows samples))))
    as [Htrim Hlen]; [unfold len; cbn [rows]; lia|].
  cbn [columns rows] in Htrim. fold out in Htrim. rewrite Htrim in Hlen.
  rewrite generate_eq, Hloop by done. cbn [fst snd preamble app].
  rewrite finish_eq, Htrim, Hcsv.
  replace (Z.of_nat (len out) <? count) with false by (symmetry; apply Z.ltb_ge; lia).
  replace (len out) with (Z.to_nat count) by lia. done.
Qed.

(** ** Rules on the same column *)

Lemma apply_rules_app pick l1 l2 k df :
  apply_rules pick k (l1 ++ l2) df
  = (let! df1 := apply_rules pick k l1 df in apply_rules pick (k + length l1) l2 df1).
Proof.
  revert k df. induction l1 as [|a l1 IH]; intros k df; cbn [apply_rules app length bind_exn].
  - by rewrite Nat.add_0_r.
  - destruct (apply_anomaly pick k a df) as [ex|df1]; [done|]. cbn [bind_exn].
    rewrite IH. by replace (S k + length l1)%nat with (k + S (length l1))%nat by lia.
Qed.

(** X12 (last rule wins): the rows sampled for the last rule of the list hold
    that rule's value in its column when [apply_anomalies] returns, whatever
    the earlier rules wrote there. *)
Theorem last_rule_wins pick pre col ty v ratio count df df' :
  wf (columns df) df →
  col ∈ columns df →
  ty = "fixed"%string ∨ ty = "null"%string →
  anomaly_count (len df) ratio = inr count →
  0 ≤ count ≤ Z.of_nat (len df) →
  apply_anomalies pick df (Some (pre ++ [mkAnomaly (Some col) (Some ty) v ratio])) = inr df' →
  ∀ i, i ∈ draw (Z.to_nat count) (seq 0 (len df)) (pick (length pre) (len df) (Z.to_nat count)) →
       ∃ r', rows df' !! i = Some r' ∧ cell (columns df) r' col = written ty v.
Proof.
  intros Hwf Hcol Hty Hcount Hrange Happly i Hi.
  destruct (draw_seq_valid (len df) (Z.to_nat count) (pick (length pre) (len df) (Z.to_nat count)))
    as (_ & _ & Hlt); [lia|].
  assert (apply_rules pick 0 (pre ++ [mkAnomaly (Some col) (Some ty) v ratio]) df = inr df')
    as Hrules by (by destruct pre).
  rewrite apply_rules_app in Hrules.
  destruct (apply_rules pick 0 pre df) as [ex|df1] eqn:Hpre; [done|].
  cbn [bind_exn apply_rules] in Hrules.
  pose proof (apply_rules_shape _ _ _ _ _ Hpre) as Hshape.
  pose proof (same_shape_wf _ _ _ _ Hshape Hwf) as [Hc1 Hr1].
  destruct Hshape as (_ & Hl1 & _).
  rewrite apply_anomaly_typed with (count := count) in Hrules;
    [| by rewrite Hc1 | by rewrite Hl1 | by rewrite Hl1 | done].
  cbn [bind_exn] in Hrules. injection Hrules as <-.
  rewrite Hl1. cbn [Nat.add].
  assert (i < len df1)%nat as Hi' by (rewrite Hl1; by eapply Forall_forall in Hlt).
  destruct (lookup_lt_is_Some_2 (rows df1) i Hi') as [r1 Hr1i].
  exists (set_cell (columns df1) col (written ty v) r1).
  rewrite loc_set_lookup, Hr1i. cbn [fmap option_fmap option_map]. rewrite decide_True by done.
  split; [done|]. rewrite Hc1. apply cell_set_cell_eq; [done|].
  by eapply Forall_lookup_1 in Hr1.
Qed.

(** ** A repeated original key and the last row of the batch *)

Lemma merge_left_length (ls rs : list row) : (length ls ≤ length (merge_left ls rs))%nat.
Proof.
  unfold merge_left. induction ls as [|l ls IH]; [done|].
  cbn [flat_map]. rewrite length_app. cbn [length].
  destruct (filter (λ r, r = l) rs) as [|x xs];
    [cbn [length]; lia | rewrite length_fmap; cbn [length]; lia].
Qed.

Lemma merge_left_app (l1 l2 rs : list row) :
  merge_left (l1 ++ l2) rs = merge_left l1 rs ++ merge_left l2 rs.
Proof.
  unfold merge_left. induction l1 as [|l l1 IH]; [done|].
  cbn [flat_map app]. by rewrite IH, app_assoc.
Qed.

(** X13 (repeated key, last row): when every common column holds strings on
    both sides or on neither (so that [merge] accepts the key columns) and
    the last row of the batch matches two or more rows of the original frame
    on the common columns, the join has more rows than the batch and its last
    label is not a label of the batch: [samples.drop] raises [KeyError] after
    the warning is logged, and the exception leaves the stage. *)
Theorem repeated_key_at_last_row_raises o samples rs r :
  is_empty o = false →
  common_cols o samples ≠ [] →
  same_kinds o samples →
  rows samples = rs ++ [r] →
  (2 ≤ length (filter (λ x, x = select (columns samples) (common_cols o samples) r)
                      (select (columns o) (common_cols o samples) <$> rows o)))%nat →
  leakage_stage (Some o) samples = ([WarnLeaked (length (leaked o samples))], inl KeyError).
Proof.
  intros Hne Hcommon Hkinds Hrows Htwice.
  pose proof (same_kinds_no_clash o samples Hkinds) as Hok.
  set (key := select (columns samples) (common_cols o samples)) in *.
  set (R := select (columns o) (common_cols o samples) <$> rows o) in *.
  assert (∃ i, i ∈ leaked o samples ∧ (len samples ≤ i)%nat) as (i & Hi & Hge).
  { exists (S (length (merge_left (key <$> rs) R))). split.
    - unfold leaked. fold key R. rewrite Hrows, fmap_app, merge_left_app.
      apply elem_of_leaked_indices.
      destruct (filter (λ x, x = key r) R) as [|x1 [|x2 F]] eqn:HF;
        [simpl in Htwice; lia | simpl in Htwice; lia|].
      assert (merge_left (key <$> [r]) R
              = (key r, both) :: (key r, both) :: ((λ _, (key r, both)) <$> F)) as ->.
      { unfold merge_left. cbn [fmap list_fmap flat_map]. rewrite HF, app_nil_r. done. }
      exists (key r, both). split; [|done].
      rewrite lookup_app_r by lia.
      replace (S (length (merge_left (key <$> rs) R)) - length (merge_left (key <$> rs) R))%nat
        with 1%nat by lia. done.
    - pose proof (merge_left_length (key <$> rs) R) as Hlen. rewrite length_fmap in Hlen.
      unfold len. rewrite Hrows, length_app. simpl. lia. }
  rewrite leakage_stage_eq, Hok by done.
  destruct (leaked o samples) as [|i0 l0] eqn:Hleak; [by apply elem_of_nil in Hi|].
  change (0 <? length (i0 :: l0))%nat with true. cbv iota. unfold drop_labels.
  rewrite decide_False; [done|].
  intros Hall. eapply Forall_forall in Hall; [|exact Hi]. lia.
Qed.

(** ** Instances of the further properties *)

Lemma apply_anomalies_keeps_shape_witness :
  apply_anomalies first_labels (amounts [1; 2; 3; 4; 5]) (Some [fixed_rule 0 float_0_75])
    = inr (amounts [0; 0; 0; 4; 5])
  ∧ columns (amounts [0; 0; 0; 4; 5]) = columns (amounts [1; 2; 3; 4; 5])
  ∧ len (amounts [0; 0; 0; 4; 5]) = len (amounts [1; 2; 3; 4; 5]).
Proof.
  assert (apply_anomalies first_labels (amounts [1; 2; 3; 4; 5]) (Some [fixed_rule 0 float_0_75])
          = inr (amounts [0; 0; 0; 4; 5])) as Happly by reflexivity.
  split; [exact Happly|].
  destruct (apply_anomalies_keeps_shape _ _ _ _ Happly) as (Hc & Hl & _).
  split; [exact Hc | exact Hl].
Defined.

Lemma out_of_range_count_raises_witness :
  rule_column (fixed_rule 0 float_2_0) = Some "amount"%string
  ∧ "amount"%string ∈ columns (amounts [1; 2; 3])
  ∧ anomaly_count (len (amounts [1; 2; 3])) (rule_ratio (fixed_rule 0 float_2_0)) = inr 6
  ∧ (6 < 0 ∨ Z.of_nat (len (amounts [1; 2; 3])) < 6)
  ∧ apply_anomaly first_labels 0 (fixed_rule 0 float_2_0) (amounts [1; 2; 3]) = inl ValueError.
Proof.
  assert ("amount"%string ∈ columns (amounts [1; 2; 3])) as Hin by left.
  assert (anomaly_count (len (amounts [1; 2; 3])) (rule_ratio (fixed_rule 0 float_2_0)) = inr 6)
    as Hcount by reflexivity.
  assert (6 < 0 ∨ Z.of_nat (len (amounts [1; 2; 3])) < 6) as Hrange
    by (right; vm_compute; reflexivity).
  split; [reflexivity|]. split; [exact Hin|]. split; [exact Hcount|]. split; [exact Hrange|].
  exact (proj1 (out_of_range_count_raises first_labels 0 (fixed_rule 0 float_2_0)
                  "amount" 6 (amounts [1; 2; 3]) eq_refl Hin Hcount Hrange)).
Defined.

Definition five_rows : DataFrame := amounts [1; 2; 3; 4; 5].

Lemma default_ratio_spares_small_batches_witness :
  (len five_rows < 20)%nat
  ∧ apply_anomaly first_labels 0
      (mkAnomaly (Some "amount"%string) (Some "null"%string) None None) five_rows
    = inr five_rows.
Proof.
  assert (len five_rows < 20)%nat as Hn by (vm_compute; lia).
  split; [exact Hn|].
  exact (proj1 (proj2 (default_ratio_spares_small_batches first_labels 0
                         (Some "amount"%string) (Some "null"%string) None
                         five_rows Hn))).
Defined.

(** An original frame on another column. *)
Definition other_column : DataFrame := mkFrame ["id"%string] [[VInt 100]; [VInt 1]].

Lemma leakage_stage_off_witness :
  (∀ c, c ∈ columns other_column → c ∉ columns (amounts [100; 1]))
  ∧ leakage_stage (Some other_column) (amounts [100; 1]) = ([], inr (amounts [100; 1])).
Proof.
  assert (∀ c, c ∈ columns other_column → c ∉ columns (amounts [100; 1])) as Hdisj.
  { intros c Hc Hc'. apply list_elem_of_singleton in Hc, Hc'. congruence. }
  split; [exact Hdisj|].
  apply leakage_stage_off. right. exists other_column. split; [reflexivity|].
  right; right. exact Hdisj.
Defined.

Lemma written_file_is_deduplicated_and_bounded_witness :
  WriteCsv (amounts [100; 1; 200; 2; 3]) ∈ fst (generate eleven_rows 5 None None)
  ∧ NoDup (rows (amounts [100; 1; 200; 2; 3]))
  ∧ Z.of_nat (len (amounts [100; 1; 200; 2; 3])) ≤ Z.max 0 5.
Proof.
  assert (WriteCsv (amounts [100; 1; 200; 2; 3]) ∈ fst (generate eleven_rows 5 None None)) as Hin.
  { vm_compute. do 3 right. left. }
  split; [exact Hin|].
  exact (written_file_is_deduplicated_and_bounded eleven_rows 5 None None _ Hin).
Defined.





(** An original file with a header and no rows. *)
Definition header_only : DataFrame := mkFrame ["amount"%string] [].

Lemma empty_original_is_ignored_witness :
  is_empty header_only = true
  ∧ model_loads eleven_rows = true
  ∧ generate eleven_rows 5 (Some header_only) None
    = (InfoLoadOriginal :: fst (generate eleven_rows 5 None None),
       snd (generate eleven_rows 5 None None)).
Proof.
  split; [reflexivity|]. split; [reflexivity|].
  exact (empty_original_is_ignored eleven_rows 5 header_only None eq_refl eq_refl).
Defined.

Lemma one_pass_run_witness :
  let samples := amounts [100; 1; 200; 2; 3; 4; 5; 6; 7; 8; 9] in
  0 < 5 < 2 ^ 48
  ∧ NoDup ["amount"%string]
  ∧ wf ["amount"%string] samples
  ∧ model_sample eleven_rows 1 (11 * 5 / 10 + 10) = Some samples
  ∧ 5 ≤ Z.of_nat (length (keep_first [] (rows samples)))
  ∧ generate eleven_rows 5 None None
    = ([InfoPass 1 (11 * 5 / 10 + 10); CallSample (11 * 5 / 10 + 10); InfoFinal (Z.to_nat 5);
        WriteCsv (mkFrame ["amount"%string] (take (Z.to_nat 5) (keep_first [] (rows samples))));
        InfoComplete], inr tt).
Proof.
  intros samples.
  assert (0 < 5 < 2 ^ 48) as Hcount by (vm_compute; split; reflexivity).
  assert (NoDup ["amount"%string]) as Hnd by apply NoDup_singleton.
  assert (wf ["amount"%string] samples) as Hwf by (split; [reflexivity | repeat constructor]).
  assert (5 ≤ Z.of_nat (length (keep_first [] (rows samples)))) as Hlen
    by (vm_compute; discriminate).
  repeat (split; [assumption || reflexivity|]).
  exact (one_pass_run eleven_rows 5 ["amount"%string] samples Hcount Hnd Hwf eq_refl eq_refl
           Hlen eq_refl).
Defined.

Lemma last_rule_wins_witness :
  let rules := [fixed_rule 0 float_0_75; fixed_rule 9 float_0_75] in
  wf (columns five_rows) five_rows
  ∧ "amount"%string ∈ columns five_rows
  ∧ anomaly_count (len five_rows) (Some (NFloat float_0_75)) = inr 3
  ∧ 0 ≤ 3 ≤ Z.of_nat (len five_rows)
  ∧ apply_anomalies first_labels five_rows (Some rules) = inr (amounts [9; 9; 9; 4; 5])
  ∧ ∀ i, i ∈ draw (Z.to_nat 3) (seq 0 (len five_rows))
               (first_labels 1%nat (len five_rows) (Z.to_nat 3)) →
         ∃ r', rows (amounts [9; 9; 9; 4; 5]) !! i = Some r'
               ∧ cell (columns five_rows) r' "amount" = VInt 9.
Proof.
  intros rules.
  assert (wf (columns five_rows) five_rows) as Hwf by (split; [reflexivity | repeat constructor]).
  assert ("amount"%string ∈ columns five_rows) as Hcol by left.
  assert (anomaly_count (len five_rows) (Some (NFloat float_0_75)) = inr 3) as Hcount
    by reflexivity.
  assert (0 ≤ 3 ≤ Z.of_nat (len five_rows)) as Hrange by (vm_compute; split; discriminate).
  assert (apply_anomalies first_labels five_rows (Some rules) = inr (amounts [9; 9; 9; 4; 5]))
    as Happly by reflexivity.
  repeat (split; [assumption|]).
  exact (last_rule_wins first_labels [fixed_rule 0 float_0_75] "amount" "fixed"
           (Some (VInt 9)) (Some (NFloat float_0_75)) 3 five_rows _ Hwf Hcol
           (or_introl eq_refl) Hcount Hrange Happly).
Defined.

Lemma repeated_key_at_last_row_raises_witness :
  let o := amounts [100; 100] in
  let samples := amounts [1; 2; 100] in
  is_empty o = false
  ∧ common_cols o samples ≠ []
  ∧ same_kinds o samples
  ∧ rows samples = [[VInt 1]; [VInt 2]] ++ [[VInt 100]]
  ∧ (2 ≤ length (filter (λ x, x = select (columns samples) (common_cols o samples) [VInt 100])
                        (select (columns o) (common_cols o samples) <$> rows o)))%nat
  ∧ leakage_stage (Some o) samples = ([WarnLeaked (length (leaked o samples))], inl KeyError).
Proof.
  intros o samples.
  assert (common_cols o samples ≠ []) as Hcommon by discriminate.
  assert (2 ≤ length (filter (λ x, x = select (columns samples) (common_cols o samples) [VInt 100])
                        (select (columns o) (common_cols o samples) <$> rows o)))%nat as Htwice
    by (vm_compute; lia).
  assert (same_kinds o samples) as Hkinds.
  { intros c Hc. apply list_elem_of_singleton in Hc as ->. reflexivity. }
  split; [reflexivity|]. split; [exact Hcommon|]. split; [exact Hkinds|].
  split; [reflexivity|]. split; [exact Htwice|].
  exact (repeated_key_at_last_row_raises o samples [[VInt 1]; [VInt 2]] [VInt 100]
           eq_refl Hcommon Hkinds eq_refl Htwice).
Defined.

Lemma distinct_original_run_does_not_crash_witness :
  let o := amounts [100; 200] in
  let cols := ["amount"%string] in
  NoDup cols
  ∧ (∀ i n s, model_sample eleven_rows i n = Some s → wf cols s)
  ∧ is_empty o = false
  ∧ common_cols o (mkFrame cols []) ≠ []
  ∧ NoDup (select (columns o) (common_cols o (mkFrame cols [])) <$> rows o)
  ∧ 20 < 2 ^ 48
  ∧ (∀ i n s, model_sample eleven_rows i n = Some s → same_kinds o s)
  ∧ (snd (generate eleven_rows 20 (Some o) None) = inr tt
     ∨ snd (generate eleven_rows 20 (Some o) None) = inl (SystemExit 1)).
Proof.
  intros o cols.
  assert (NoDup cols) as Hcols by apply NoDup_singleton.
  assert (∀ i n s, model_sample eleven_rows i n = Some s → wf cols s) as Hmodel.
  { intros i n s [= <-]. split; [reflexivity | repeat constructor]. }
  assert (common_cols o (mkFrame cols []) ≠ []) as Hcommon by discriminate.
  assert (NoDup (select (columns o) (common_cols o (mkFrame cols [])) <$> rows o)) as Hnd.
  { vm_compute. apply NoDup_cons. split.
    - intros Hin. apply list_elem_of_singleton in Hin. discriminate Hin.
    - apply NoDup_singleton. }
  assert (20 < 2 ^ 48) as Hcount by (vm_compute; reflexivity).
  assert (∀ i n s, model_sample eleven_rows i n = Some s → same_kinds o s) as Hkeys.
  { intros i n s [= <-] c Hc. apply list_elem_of_singleton in Hc as ->. reflexivity. }
  repeat (split; [assumption || reflexivity|]).
  exact (distinct_original_run_does_not_crash eleven_rows 20 o None cols Hcols Hmodel eq_refl
           Hcommon Hnd eq_refl Hcount Hkeys).
Defined.
